(** * cloneEC2.py: configuration derivation, merge and image polling

    A shallow embedding of [cloneEC2.py].  Python values are a small
    JSON-like universe, dictionaries are finite maps with string keys,
    exceptions are explicit results, and the calls to the provider, the
    sleeps and the prints are recorded in a chronological history that the
    provider's answers may depend on. *)

From stdpp Require Import gmap strings list fin_maps.
From Stdlib Require Import ZArith Ascii.

#[local] Set Warnings "-register-all".

(** ** Python values *)

(** The values that occur in boto3 responses and in the script.  [POther]
    stands for any object of another type (a [datetime], a float): it is
    not subscriptable, not iterable and has no [startswith]. *)
Inductive pyval : Type :=
| PNone
| PBool (b : bool)
| PInt (z : Z)
| PStr (s : string)
| PList (l : list pyval)
| PDict (d : gmap string pyval)
| POther (repr : string).

Abbreviation dict := (gmap string pyval).

(** The exceptions the script can meet.  [ClientError] is botocore's. *)
Inductive exn : Type :=
| KeyError (key : pyval)
| IndexError
| TypeError
| AttributeError
| ValueError
| SyntaxError (msg : string)
| ClientError (code : string).

(** Result of a pure Python expression: a value or a raised exception. *)
Inductive result (A : Type) : Type :=
| Ok (a : A)
| Err (e : exn).
Arguments Ok {A} a.
Arguments Err {A} e.

#[global] Instance result_ret : MRet result := λ A a, Ok a.
#[global] Instance result_bind : MBind result := λ A B f r,
  match r with
  | Ok a => f a
  | Err e => Err e
  end.

(** [v[k]] for a string key [k]. *)
Definition getitem_key (v : pyval) (k : string) : result pyval :=
  match v with
  | PDict d =>
      match d !! k with
      | Some x => Ok x
      | None => Err (KeyError (PStr k))
      end
  | _ => Err TypeError
  end.

(** [v[i]] for a non-negative integer index [i].  The dictionaries of this
    model only have string keys, so an integer key is never found. *)
Definition getitem_idx (v : pyval) (i : nat) : result pyval :=
  match v with
  | PList l =>
      match l !! i with
      | Some x => Ok x
      | None => Err IndexError
      end
  | PStr s =>
      match String.get i s with
      | Some c => Ok (PStr (String c EmptyString))
      | None => Err IndexError
      end
  | PDict _ => Err (KeyError (PInt (Z.of_nat i)))
  | _ => Err TypeError
  end.

(** The one-character strings of a string, as [for c in s] yields them. *)
Fixpoint chars (s : string) : list pyval :=
  match s with
  | EmptyString => []
  | String c s' => PStr (String c EmptyString) :: chars s'
  end.

(** The items [for x in v] goes through.  A dictionary yields its keys; the
    finite map does not keep Python's insertion order, and nothing below
    depends on the order of the keys. *)
Definition py_iter (v : pyval) : result (list pyval) :=
  match v with
  | PList l => Ok l
  | PStr s => Ok (chars s)
  | PDict d => Ok (PStr <$> (map_to_list d).*1)
  | _ => Err TypeError
  end.

(** [v.startswith(p)]. *)
Definition py_startswith (v : pyval) (p : string) : result bool :=
  match v with
  | PStr s => Ok (String.prefix p s)
  | _ => Err AttributeError
  end.

(** The operand [v] of a string concatenation ['...' + v]. *)
Definition as_str (v : pyval) : result string :=
  match v with
  | PStr s => Ok s
  | _ => Err TypeError
  end.

(** [v != s] for a string literal [s]. *)
Definition py_ne_str (v : pyval) (s : string) : bool :=
  match v with
  | PStr s' => negb (String.eqb s' s)
  | _ => true
  end.

(** [[f x for x in l]], stopping at the first exception. *)
Fixpoint map_result {A B} (f : A → result B) (l : list A) : result (list B) :=
  match l with
  | [] => Ok []
  | x :: l' => y ← f x; ys ← map_result f l'; Ok (y :: ys)
  end.

(** ** State, exceptions and divergence *)

(** What running a piece of the script gives: a value, an exception, or
    nothing because the fuel of a loop ran out. *)
Inductive outcome (A : Type) : Type :=
| Ret (a : A)
| Raise (e : exn)
| Diverge.
Arguments Ret {A} a.
Arguments Raise {A} e.
Arguments Diverge {A}.

(** A computation over a mutable object or world of type [S].  The state is
    kept when an exception is raised: what was mutated stays mutated. *)
Definition M (S A : Type) : Type := S → outcome A * S.

#[global] Instance M_ret {S} : MRet (M S) := λ A a s, (Ret a, s).
#[global] Instance M_bind {S} : MBind (M S) := λ A B f m s,
  match m s with
  | (Ret a, s') => f a s'
  | (Raise e, s') => (Raise e, s')
  | (Diverge, s') => (Diverge, s')
  end.

Definition raise {S A} (e : exn) : M S A := λ s, (Raise e, s).
Definition diverge {S A} : M S A := λ s, (Diverge, s).

Definition lift {S A} (r : result A) : M S A :=
  match r with
  | Ok a => mret a
  | Err e => raise e
  end.

(** A computation on an object [obj] of its own, inside a computation on
    another state: its value or exception is passed on. *)
Definition run_on {S T A} (obj : T) (m : M T A) : M S A := λ s,
  ((m obj).1, s).

(** [for x in l: body(x)]. *)
Fixpoint for_each {S A} (l : list A) (body : A → M S unit) : M S unit :=
  match l with
  | [] => mret ()
  | x :: l' => body x;; for_each l' body
  end.

(** *** Operations on a dictionary held in the state *)

(** [source_config[k]]. *)
Definition load (k : string) : M dict pyval := λ d,
  match d !! k with
  | Some v => (Ret v, d)
  | None => (Raise (KeyError (PStr k)), d)
  end.

(** [source_config[k] = v]. *)
Definition store (k : string) (v : pyval) : M dict unit := λ d,
  (Ret (), <[k:=v]> d).

(** [k in source_config]. *)
Definition contains (k : string) : M dict bool := λ d,
  (Ret (bool_decide (is_Some (d !! k))), d).

(** [source_config[k].append(x)]: the list held under [k] is extended in
    place, so the dictionary sees the longer list. *)
Definition append_to (k : string) (x : pyval) : M dict unit := λ d,
  match d !! k with
  | Some (PList l) => (Ret (), <[k:=PList (l ++ [x])]> d)
  | Some _ => (Raise AttributeError, d)
  | None => (Raise (KeyError (PStr k)), d)
  end.

(** ** The provider, the random source and the history *)

(** A request of the script to the EC2 API, with the region of the client
    that sends it and the keyword arguments of the call. *)
Inductive request : Type :=
| CreateImage (region InstanceId Name : string)
| DescribeImages (region : string) (ImageIds : pyval)
| DescribeInstances (region : string) (InstanceIds : pyval)
| RunInstances (region : string) (kwargs : dict).

(** What the script does to the outside world, in the order it does it. *)
Inductive event : Type :=
| Call (rq : request) (response : result pyval)
| Sleep (seconds : nat)
| Print (v : pyval)
| Choice (c : Ascii.ascii).

(** The outside world: the response of the provider to a request, and the
    index the random generator draws, both as functions of everything that
    happened so far.  This covers every deterministic provider. *)
Record environment : Type := {
  ec2 : list event → request → result pyval;
  random : list event → nat
}.

Abbreviation IO := (M (list event)).

Definition emit (e : event) : IO unit := λ h, (Ret (), h ++ [e]).

(** [print(v)]. *)
Definition print (v : pyval) : IO unit := emit (Print v).

(** [time.sleep(n)]. *)
Definition sleep (n : nat) : IO unit := emit (Sleep n).

(** A call [client.operation(...)]: the response, or the exception the
    client raises; either way the call is in the history. *)
Definition call (env : environment) (rq : request) : IO pyval := λ h,
  match ec2 env h rq with
  | Ok v => (Ret v, h ++ [Call rq (Ok v)])
  | Err e => (Raise e, h ++ [Call rq (Err e)])
  end.

(** [random.choice(seq)] on the characters of a string. *)
Definition random_choice (env : environment) (seq : string) : IO Ascii.ascii := λ h,
  match String.get (random env h mod String.length seq) seq with
  | Some c => (Ret c, h ++ [Choice c])
  | None => (Raise IndexError, h)
  end.

(** [''.join(random.choice(letters) for i in range(n))]. *)
Fixpoint random_letters (env : environment) (letters : string) (n : nat)
  : IO string :=
  match n with
  | O => mret EmptyString
  | S n' =>
      c ← random_choice env letters;
      rest ← random_letters env letters n';
      mret (String c rest)
  end.

(** [string.ascii_lowercase]. *)
Definition ascii_lowercase : string := "abcdefghijklmnopqrstuvwxyz".

(** The newline the script's messages start with. *)
Definition nl : string := String (Ascii.ascii_of_nat 10) EmptyString.

(** ** The script *)

Section CloneEC2.

(** The provider and the three module-level globals, set once from the
    command line before [main] runs. *)
Variable env : environment.
Variable region : string.
Variable sourceinstance : string.
Variable sysargv_config : gmap string string.

(** [create_image(instanceid)], lines 52-65. *)
Definition create_image (instanceid : string) : IO pyval :=
  let letters := ascii_lowercase in
  suffix ← random_letters env letters 10;
  response ← call env (CreateImage region instanceid
                         (instanceid +:+ "-" +:+ suffix));
  imageid ← lift (getitem_key response "ImageId");
  mret imageid.

(** [image_status(ami)], lines 68-76. *)
Definition image_status (ami : pyval) : IO pyval :=
  response ← call env (DescribeImages region (PList [ami]));
  images ← lift (getitem_key response "Images");
  image ← lift (getitem_idx images 0);
  state ← lift (getitem_key image "State");
  mret state.

(** [get_instance_config(instanceid)], lines 79-87. *)
Definition get_instance_config (instanceid : string) : IO pyval :=
  response ← call env (DescribeInstances region (PList [PStr instanceid]));
  reservations ← lift (getitem_key response "Reservations");
  reservation ← lift (getitem_idx reservations 0);
  instances ← lift (getitem_key reservation "Instances");
  source_config ← lift (getitem_idx instances 0);
  mret source_config.

(** The parameters to be retained, lines 106-116. *)
Definition filter_keys : list string :=
  [ "ImageId"; "InstanceType"; "KeyName"; "SubnetId"; "VpcId";
    "SecurityGroups"; "IamInstanceProfile"; "EbsOptimized"; "Tags" ].

(** The two provenance tags, lines 124-133. *)
Definition meta_tags : list pyval :=
  [ PDict {[ "Key" := PStr "CloneMethod"; "Value" := PStr "cloneEC2.py" ]};
    PDict {[ "Key" := PStr "CloneSource"; "Value" := PStr sourceinstance ]} ].

(** The test of line 139, [not tag['Key'].startswith('aws:')]. *)
Definition tag_is_carried (tag : pyval) : result bool :=
  key ← getitem_key tag "Key";
  reserved ← py_startswith key "aws:";
  mret (negb reserved).

(** Lines 139-140, the body of the loop over the source tags. *)
Definition carry_tag (tag : pyval) : M dict unit :=
  carried ← lift (tag_is_carried tag);
  if carried : bool then append_to "Tags" tag else mret ().

(** The loop of lines 147-148: [filtered_config[key] = source_config[key]]
    for each key, onto the dictionary built so far. *)
Fixpoint project (keys : list string) (filtered_config : dict)
  : M dict dict :=
  match keys with
  | [] => mret filtered_config
  | key :: keys' =>
      v ← load key;
      project keys' (<[key:=v]> filtered_config)
  end.

(** [sanitise_instance_config(source_config)], lines 90-150.  The state is
    the dictionary [source_config], which the function updates in place;
    the value returned is [filtered_config]. *)
Definition sanitise_instance_config : M dict dict :=
  security_groups ← load "SecurityGroups";
  sgs ← lift (py_iter security_groups);
  security_groups_list ← lift (map_result (λ sg, getitem_key sg "GroupId") sgs);
  store "SecurityGroups" (PList security_groups_list);;
  has_profile ← contains "IamInstanceProfile";
  (if has_profile : bool then
     profile ← load "IamInstanceProfile";
     arn ← lift (getitem_key profile "Arn");
     store "IamInstanceProfile" arn
   else
     store "IamInstanceProfile" (PStr ""));;
  has_tags ← contains "Tags";
  (if has_tags : bool then
     source_tags ← load "Tags";
     store "Tags" (PList meta_tags);;
     tags ← lift (py_iter source_tags);
     for_each tags carry_tag
   else
     store "Tags" (PList meta_tags));;
  project filter_keys ∅.

(** [modify_instance_config(source_config, **kwargs)], lines 153-162.
    A keyword named like the positional parameter cannot be bound: Python
    raises [TypeError] at the call.  The loop copies [kwargs] into
    [append_config]; the entries of [append_config] win in the merge. *)
Definition modify_instance_config (source_config kwargs : dict)
  : result dict :=
  if bool_decide (is_Some (kwargs !! "source_config")) then Err TypeError
  else
    let append_config := map_fold (λ key value acc, <[key:=value]> acc) ∅ kwargs in
    let new_config := append_config ∪ source_config in
    Ok new_config.

(** The keyword arguments of [client.run_instances], lines 168-186, read
    from [config] from top to bottom. *)
Definition run_instances_kwargs (config : dict) : result dict :=
  image_id ← getitem_key (PDict config) "ImageId";
  instance_type ← getitem_key (PDict config) "InstanceType";
  key_name ← getitem_key (PDict config) "KeyName";
  subnet_id ← getitem_key (PDict config) "SubnetId";
  security_group_ids ← getitem_key (PDict config) "SecurityGroups";
  ebs_optimized ← getitem_key (PDict config) "EbsOptimized";
  arn ← getitem_key (PDict config) "IamInstanceProfile";
  tags ← getitem_key (PDict config) "Tags";
  mret ({[ "ImageId" := image_id;
           "InstanceType" := instance_type;
           "KeyName" := key_name;
           "SubnetId" := subnet_id;
           "SecurityGroupIds" := security_group_ids;
           "EbsOptimized" := ebs_optimized;
           "IamInstanceProfile" := PDict {[ "Arn" := arn ]};
           "TagSpecifications" :=
             PList [ PDict {[ "ResourceType" := PStr "instance";
                              "Tags" := tags ]} ];
           "MinCount" := PInt 1;
           "MaxCount" := PInt 1 ]} : dict).

(** [run_instance(config)], lines 164-190. *)
Definition run_instance (config : dict) : IO pyval :=
  kwargs ← lift (run_instances_kwargs config);
  response ← call env (RunInstances region kwargs);
  instances ← lift (getitem_key response "Instances");
  instance ← lift (getitem_idx instances 0);
  instanceid ← lift (getitem_key instance "InstanceId");
  mret instanceid.

(** The loop of lines 202-205.  Each unit of fuel pays for one test of the
    loop condition. *)
Fixpoint wait_available (fuel : nat) (ami : pyval) : IO unit :=
  match fuel with
  | O => diverge
  | S fuel' =>
      state ← image_status ami;
      if py_ne_str state "available" then
        sleep 5;;
        print (PStr "...Still waiting for AMI to become available...");;
        sleep 5;;
        wait_available fuel' ami
      else mret ()
  end.

(** Lines 195-211 of [main]: the image to launch from. *)
Definition resolve_image (fuel : nat) : IO pyval :=
  match sysargv_config !! "ImageId" with
  | None =>
      print (PStr (nl +:+ "=> ImageId not specified, creating an AMI from EC2 instance ("
                      +:+ sourceinstance +:+ ")"));;
      ami ← create_image sourceinstance;
      ami_text ← lift (as_str ami);
      print (PStr (nl +:+ "<= Waiting for (" +:+ ami_text
                      +:+ ") to become available..."));;
      wait_available fuel ami;;
      state ← image_status ami;
      state_text ← lift (as_str state);
      print (PStr (nl +:+ "<= Image (" +:+ ami_text +:+ ") status: "
                      +:+ state_text));;
      mret ami
  | Some image_id =>
      let ami := image_id in
      print (PStr (nl +:+ "<= ImageID specified, using (" +:+ ami
                      +:+ ") to launch new instance."));;
      mret (PStr ami)
  end.

(** Lines 222-223 of [main]: the effective configuration. *)
Definition effective_config (sanitised_source_config : dict) (ami : pyval)
  : result dict :=
  let custom_config : dict := (PStr <$> sysargv_config) ∪ {[ "ImageId" := ami ]} in
  modify_instance_config sanitised_source_config custom_config.

(** The call of line 218 on the object [get_instance_config] returned.
    Only a dictionary can be subscripted with a string (line 99).  The
    function works on that object; [main] never reads it again. *)
Definition sanitise_fetched (source_config : pyval) : IO dict :=
  match source_config with
  | PDict d => run_on d sanitise_instance_config
  | _ => raise TypeError
  end.

(** Lines 214-228 of [main]: fetch, sanitise, merge and launch. *)
Definition launch_clone (ami : pyval) : IO unit :=
  print (PStr (nl +:+ "<= Getting source EC2 configuration ("
                  +:+ sourceinstance +:+ ")..."));;
  source_config ← get_instance_config sourceinstance;
  print (PStr (nl +:+ "<= Sanitised source EC2 configuration:"));;
  sanitised_source_config ← sanitise_fetched source_config;
  print (PDict sanitised_source_config);;
  print (PStr (nl +:+ "<= Modified EC2 configuration:"));;
  new_config ← lift (effective_config sanitised_source_config ami);
  print (PDict new_config);;
  print (PStr (nl +:+ "=> Launching new EC2 instance..."));;
  instanceid ← run_instance new_config;
  instanceid_text ← lift (as_str instanceid);
  print (PStr (nl +:+ "<= New EC2 Insatnce ID: " +:+ instanceid_text +:+ nl)).

(** [main()], lines 193-228. *)
Definition main (fuel : nat) : IO unit :=
  ami ← resolve_image fuel;
  launch_clone ami.

End CloneEC2.

(** ** The command line, lines 230-242 *)

(** [s.split(sep)] for a one-character separator. *)
Fixpoint split_on (sep : Ascii.ascii) (s : string) : list string :=
  match s with
  | EmptyString => [EmptyString]
  | String c s' =>
      if Ascii.eqb c sep then EmptyString :: split_on sep s'
      else
        match split_on sep s' with
        | w :: ws => String c w :: ws
        | [] => [String c EmptyString]
        end
  end.

(** [dict(pairs)]: every element must have exactly two items; a later pair
    replaces an earlier one with the same key. *)
Fixpoint dict_of_pairs (pairs : list (list string)) (acc : gmap string string)
  : result (gmap string string) :=
  match pairs with
  | [] => Ok acc
  | [k; v] :: pairs' => dict_of_pairs pairs' (<[k:=v]> acc)
  | _ :: _ => Err ValueError
  end.

(** The block under [if __name__ == "__main__"], on [sys.argv]. *)
Definition script (env : environment) (argv : list string) (fuel : nat)
  : IO unit :=
  if length argv <? 3 then
    raise (SyntaxError "Insufficient arguments, expected arguments: <region> <source ec2 instance id> <key=value>...")
  else
    match argv with
    | _ :: region :: sourceinstance :: overrides =>
        sysargv_config ←
          (if 3 <? length argv
           then lift (dict_of_pairs (split_on "="%char <$> overrides) ∅)
           else mret ∅);
        main env region sourceinstance sysargv_config fuel
    | _ => raise IndexError
    end.

(** ** Vocabulary of the statements *)

(** The keys [run_instance] reads from the configuration it is given. *)
Definition launch_keys : list string :=
  [ "ImageId"; "InstanceType"; "KeyName"; "SubnetId"; "SecurityGroups";
    "EbsOptimized"; "IamInstanceProfile"; "Tags" ].

(** The keys of the projection that have no default: all of [filter_keys]
    but [IamInstanceProfile] and [Tags]. *)
Definition required_keys : list string :=
  [ "ImageId"; "InstanceType"; "KeyName"; "SubnetId"; "VpcId";
    "SecurityGroups"; "EbsOptimized" ].

(** The keys [sanitise_instance_config] assigns in its argument. *)
Definition rewritten_keys : list string :=
  [ "SecurityGroups"; "IamInstanceProfile"; "Tags" ].

(** A tag whose key starts with the reserved prefix. *)
Definition reserved_key (tag : pyval) : bool :=
  match getitem_key tag "Key" with
  | Ok (PStr k) => String.prefix "aws:" k
  | _ => false
  end.

(** A tag whose key is [k]. *)
Definition has_key (k : string) (tag : pyval) : bool :=
  match getitem_key tag "Key" with
  | Ok (PStr k') => String.eqb k' k
  | _ => false
  end.

(** How many tags of a list have the key [k]. *)
Definition count_key (k : string) (tags : list pyval) : nat :=
  length (List.filter (has_key k) tags).


Definition is_image_poll (e : event) : bool :=
  match e with
  | Call (DescribeImages _ _) _ => true
  | _ => false
  end.

Definition is_launch (e : event) : bool :=
  match e with
  | Call (RunInstances _ _) _ => true
  | _ => false
  end.

(** How many events of a history satisfy [p]. *)
Definition count_events (p : event → bool) (h : list event) : nat :=
  length (List.filter p h).

(** The image id each image-creation call of a history returned, as
    [create_image] reads it from the response. *)
Definition created_images (h : list event) : list (result pyval) :=
  omap (λ e,
    match e with
    | Call (CreateImage _ _ _) response =>
        Some (r ← response; getitem_key r "ImageId")
    | _ => None
    end) h.

(** The [ImageId] argument of each launch request of a history. *)
Definition launched_images (h : list event) : list (option pyval) :=
  omap (λ e,
    match e with
    | Call (RunInstances _ kwargs) _ => Some (kwargs !! "ImageId")
    | _ => None
    end) h.

(** What the script does between two polls of the image state. *)
Definition still_waiting : list event :=
  [ Sleep 5;
    Print (PStr "...Still waiting for AMI to become available...");
    Sleep 5 ].

(** ** Example inputs *)

Definition make_tag (key value : string) : pyval :=
  PDict {[ "Key" := PStr key; "Value" := PStr value ]}.

Definition make_group (group_id group_name : string) : pyval :=
  PDict {[ "GroupId" := PStr group_id; "GroupName" := PStr group_name ]}.

(** A descriptor as [describe_instances] gives it, with two fields the
    projection discards and one reserved tag. *)
Definition example_descriptor : dict :=
  {[ "ImageId" := PStr "ami-0source";
     "InstanceType" := PStr "t3.micro";
     "KeyName" := PStr "ops";
     "SubnetId" := PStr "subnet-1";
     "VpcId" := PStr "vpc-1";
     "SecurityGroups" := PList [ make_group "sg-1" "web"; make_group "sg-2" "db" ];
     "IamInstanceProfile" :=
       PDict {[ "Arn" := PStr "arn:aws:iam::1:instance-profile/app";
                "Id" := PStr "AIPA1" ]};
     "EbsOptimized" := PBool false;
     "Tags" := PList [ make_tag "aws:autoscaling:groupName" "foo";
                       make_tag "Environment" "prod" ];
     "LaunchTime" := POther "datetime.datetime(2021, 6, 17)";
     "PublicIpAddress" := PStr "203.0.113.7" ]}.

(** What the sanitiser returns for [example_descriptor] and the source
    instance [i-srcA]. *)
Definition example_sanitised : dict :=
  {[ "ImageId" := PStr "ami-0source";
     "InstanceType" := PStr "t3.micro";
     "KeyName" := PStr "ops";
     "SubnetId" := PStr "subnet-1";
     "VpcId" := PStr "vpc-1";
     "SecurityGroups" := PList [ PStr "sg-1"; PStr "sg-2" ];
     "IamInstanceProfile" := PStr "arn:aws:iam::1:instance-profile/app";
     "EbsOptimized" := PBool false;
     "Tags" := PList [ make_tag "CloneMethod" "cloneEC2.py";
                       make_tag "CloneSource" "i-srcA";
                       make_tag "Environment" "prod" ] ]}.

(** The state of [example_descriptor] after the sanitiser ran on it. *)
Definition example_rewritten : dict :=
  <["LaunchTime" := POther "datetime.datetime(2021, 6, 17)"]>
    (<["PublicIpAddress" := PStr "203.0.113.7"]> example_sanitised).

(** A bare descriptor: no instance profile and no [Tags] key. *)
Definition bare_descriptor : dict :=
  delete "Tags" (delete "IamInstanceProfile" example_descriptor).

(** What the sanitiser returns for [bare_descriptor] and [i-srcA]. *)
Definition bare_sanitised : dict :=
  <["Tags" := PList [ make_tag "CloneMethod" "cloneEC2.py";
                      make_tag "CloneSource" "i-srcA" ]]>
    (<["IamInstanceProfile" := PStr ""]> example_sanitised).

(** The descriptor of an instance that is itself a clone made by the
    script: it carries the two provenance tags of its own cloning. *)
Definition cloned_descriptor : dict :=
  <["Tags" := PList [ make_tag "CloneMethod" "cloneEC2.py";
                      make_tag "CloneSource" "i-0original";
                      make_tag "Environment" "prod" ]]> example_descriptor.

(** A descriptor with no [SubnetId] key at all. *)
Definition descriptor_without_subnet : dict :=
  delete "SubnetId" example_descriptor.

(** The overrides of the scenario "image + subnet override". *)
Definition example_overrides : gmap string string :=
  {[ "ImageId" := "ami-X"; "SubnetId" := "subnet-Y" ]}.

(** The effective configuration for [example_sanitised] under
    [example_overrides]. *)
Definition example_effective : dict :=
  <["ImageId" := PStr "ami-X"]>
    (<["SubnetId" := PStr "subnet-Y"]> example_sanitised).

(** A [describe_images] response for one image in the given state. *)
Definition image_response (state : string) : pyval :=
  PDict {[ "Images" := PList [ PDict {[ "State" := PStr state ]} ] ]}.

(** A [describe_instances] response for one instance. *)
Definition instances_response (descriptor : dict) : pyval :=
  PDict {[ "Reservations" :=
             PList [ PDict {[ "Instances" := PList [ PDict descriptor ] ]} ] ]}.

(** A provider whose new image is [ami-0new], whose instance has the
    descriptor [descriptor], whose launches give [i-0clone], and that
    reports the state [states n] of the image to the query that follows [n]
    earlier queries. *)
Definition scripted_env (descriptor : dict) (states : nat → string)
  : environment := {|
  ec2 := λ h rq,
    match rq with
    | CreateImage _ _ _ => Ok (PDict {[ "ImageId" := PStr "ami-0new" ]})
    | DescribeImages _ _ =>
        Ok (image_response (states (count_events is_image_poll h)))
    | DescribeInstances _ _ => Ok (instances_response descriptor)
    | RunInstances _ _ =>
        Ok (PDict {[ "Instances" :=
                       PList [ PDict {[ "InstanceId" := PStr "i-0clone" ]} ] ]})
    end;
  random := λ h, length h
|}.

(** The image is pending for two queries, then available. *)
Definition ready_after_two (n : nat) : string :=
  if n <? 2 then "pending" else "available".

(** The image creation failed: the state is [failed] for ever. *)
Definition always_failed (n : nat) : string := "failed".

Definition example_env : environment :=
  scripted_env example_descriptor ready_after_two.

Definition failed_env : environment :=
  scripted_env example_descriptor always_failed.

Definition subnetless_env : environment :=
  scripted_env descriptor_without_subnet ready_after_two.

(** Every run of [m] adds to the history only events that satisfy [φ]. *)
Definition emits (φ : event → Prop) {A} (m : IO A) : Prop :=
  ∀ h, ∃ evs, (m h).2 = h ++ evs ∧ Forall φ evs.



(** The message printed right before the merge, line 221. *)
Definition merge_banner : event :=
  Print (PStr (nl +:+ "<= Modified EC2 configuration:")).

(** An event that is neither a launch nor the banner of the merge. *)
Definition before_merge (e : event) : Prop :=
  is_launch e = false ∧ e ≠ merge_banner.

(** A computation that always comes to an end: no fuel is involved. *)
Definition total {S A} (m : M S A) : Prop := ∀ s, (m s).1 ≠ Diverge.

(** A computation whose final state is related to its initial state by
    [R], whatever its outcome. *)
Definition preserves {S} (R : relation S) {A} (m : M S A) : Prop :=
  ∀ s, R s (m s).2.

(** The entries under [k] are the same in both dictionaries. *)
Definition same_at (k : string) : relation dict := λ d d', d' !! k = d !! k.

Definition is_describe_instances (e : event) : bool :=
  match e with
  | Call (DescribeInstances _ _) _ => true
  | _ => false
  end.

(** Every run of [m] adds at most [n] events that satisfy [p]. *)
Definition adds_at_most (p : event → bool) (n : nat) {A} (m : IO A) : Prop :=
  ∀ h, ∃ evs, (m h).2 = h ++ evs ∧ count_events p evs ≤ n.

(** Every run of [m] that returns has added an event that satisfies [p]. *)
Definition returns_after (p : event → bool) {A} (m : IO A) : Prop :=
  ∀ h a h', m h = (Ret a, h') →
    ∃ evs, h' = h ++ evs ∧ 1 ≤ count_events p evs.

(** * Reasoning about computations *)

Section Computations.
Context {S : Type}.

Lemma bind_Ret {A B} (m : M S A) (f : A → M S B) s a s' :
  m s = (Ret a, s') → (m ≫= f) s = f a s'.
Proof. unfold mbind, M_bind. by intros ->. Qed.

Lemma bind_Raise {A B} (m : M S A) (f : A → M S B) s e s' :
  m s = (Raise e, s') → (m ≫= f) s = (Raise e, s').
Proof. unfold mbind, M_bind. by intros ->. Qed.

Lemma bind_Diverge {A B} (m : M S A) (f : A → M S B) s s' :
  m s = (Diverge, s') → (m ≫= f) s = (Diverge, s').
Proof. unfold mbind, M_bind. by intros ->. Qed.

Lemma bind_Ret_inv {A B} (m : M S A) (f : A → M S B) s b s'' :
  (m ≫= f) s = (Ret b, s'') →
  ∃ a s', m s = (Ret a, s') ∧ f a s' = (Ret b, s'').
Proof.
  unfold mbind, M_bind. destruct (m s) as [[a|e|] s']; [eauto|done..].
Qed.

Lemma lift_Ret_inv {A} (r : result A) (s : S) a s' :
  lift r s = (Ret a, s') → r = Ok a ∧ s' = s.
Proof. destruct r; cbv; naive_solver. Qed.

Lemma lift_Ok {A} (a : A) (s : S) : lift (Ok a) s = (Ret a, s).
Proof. done. Qed.

Lemma lift_Err {A} e (s : S) : lift (A:=A) (Err e) s = (Raise e, s).
Proof. done. Qed.

Lemma total_ret {A} (a : A) : total (mret a : M S A).
Proof. by intros s. Qed.

Lemma total_raise {A} e : total (raise e : M S A).
Proof. by intros s. Qed.

Lemma total_lift {A} (r : result A) : total (lift r : M S A).
Proof. destruct r; [apply total_ret|apply total_raise]. Qed.

Lemma total_bind {A B} (m : M S A) (f : A → M S B) :
  total m → (∀ a, total (f a)) → total (m ≫= f).
Proof.
  intros Hm Hf s. specialize (Hm s). unfold mbind, M_bind.
  destruct (m s) as [[a|e|] s']; [apply Hf|done..].
Qed.

Lemma total_for_each {A} (l : list A) (body : A → M S unit) :
  (∀ x, total (body x)) → total (for_each l body).
Proof.
  intros Hbody. induction l as [|x l IH]; [apply total_ret|].
  by apply total_bind.
Qed.

Context (R : relation S) `{!PreOrder R}.

Lemma preserves_ret {A} (a : A) : preserves R (mret a).
Proof. by intros s. Qed.

Lemma preserves_raise {A} e : preserves R (raise (A:=A) e).
Proof. by intros s. Qed.

Lemma preserves_lift {A} (r : result A) : preserves R (lift r).
Proof. destruct r; [apply preserves_ret|apply preserves_raise]. Qed.

Lemma preserves_bind {A B} (m : M S A) (f : A → M S B) :
  preserves R m → (∀ a, preserves R (f a)) → preserves R (m ≫= f).
Proof.
  intros Hm Hf s. specialize (Hm s). unfold mbind, M_bind.
  destruct (m s) as [[a|e|] s'] eqn:E; simpl in *; [|done..].
  by etrans; [|apply Hf].
Qed.

Lemma preserves_for_each {A} (l : list A) (body : A → M S unit) :
  (∀ x, preserves R (body x)) → preserves R (for_each l body).
Proof.
  intros Hbody. induction l as [|x l IH]; [apply preserves_ret|].
  by apply preserves_bind.
Qed.

End Computations.

(** * The dictionary operations *)

Lemma load_Ret_inv k (d : dict) v d' :
  load k d = (Ret v, d') → d !! k = Some v ∧ d' = d.
Proof. unfold load. destruct (d !! k); naive_solver. Qed.

Lemma load_Some k (d : dict) v : d !! k = Some v → load k d = (Ret v, d).
Proof. unfold load. by intros ->. Qed.

Lemma load_None k (d : dict) :
  d !! k = None → load k d = (Raise (KeyError (PStr k)), d).
Proof. unfold load. by intros ->. Qed.

Lemma store_Ret_inv k v (d : dict) u d' :
  store k v d = (Ret u, d') → d' = <[k:=v]> d.
Proof. unfold store. naive_solver. Qed.

Lemma contains_Ret_inv k (d : dict) b d' :
  contains k d = (Ret b, d') → b = bool_decide (is_Some (d !! k)) ∧ d' = d.
Proof. unfold contains. naive_solver. Qed.

Lemma append_to_Ret_inv k x (d : dict) u d' :
  append_to k x d = (Ret u, d') →
  ∃ l, d !! k = Some (PList l) ∧ d' = <[k:=PList (l ++ [x])]> d.
Proof.
  unfold append_to. destruct (d !! k) as [[]|]; naive_solver.
Qed.

Lemma total_load k : total (load k).
Proof. intros d. unfold load. by destruct (d !! k). Qed.

Lemma total_store k v : total (store k v).
Proof. by intros d. Qed.

Lemma total_contains k : total (contains k).
Proof. by intros d. Qed.

Lemma total_append_to k x : total (append_to k x).
Proof. intros d. unfold append_to. by destruct (d !! k) as [[]|]. Qed.

Lemma total_project keys : ∀ acc, total (project keys acc).
Proof.
  induction keys as [|k keys IH]; intros acc; [apply total_ret|].
  apply total_bind; [apply total_load|]. intros v. apply IH.
Qed.

#[global] Instance same_at_preorder k : PreOrder (same_at k).
Proof. split; [done|]. intros d1 d2 d3 H12 H23. unfold same_at in *. congruence. Qed.

Lemma preserves_load k j : preserves (same_at k) (load j).
Proof. intros d. unfold load. by destruct (d !! j). Qed.

Lemma preserves_contains k j : preserves (same_at k) (contains j).
Proof. by intros d. Qed.

Lemma preserves_store k j v : j ≠ k → preserves (same_at k) (store j v).
Proof. intros Hne d. unfold same_at, store. simpl. by rewrite lookup_insert_ne. Qed.

Lemma preserves_append_to k j x : j ≠ k → preserves (same_at k) (append_to j x).
Proof.
  intros Hne d. unfold same_at, append_to.
  destruct (d !! j) as [[]|]; simpl; try done. by rewrite lookup_insert_ne.
Qed.

Lemma preserves_project k keys : ∀ acc, preserves (same_at k) (project keys acc).
Proof.
  induction keys as [|j keys IH]; intros acc; simpl.
  - apply preserves_ret, _.
  - apply preserves_bind; [apply _|apply preserves_load|]. intros v. apply IH.
Qed.

Lemma project_Ret_inv keys : ∀ acc (d : dict) f d',
  project keys acc d = (Ret f, d') →
  d' = d ∧ (∀ k, k ∈ keys → is_Some (d !! k)) ∧
  (∀ k, f !! k = if decide (k ∈ keys) then d !! k else acc !! k).
Proof.
  induction keys as [|j keys IH]; intros acc d f d' H.
  - injection H as <- <-. split; [done|]. split; [by intros k ?%elem_of_nil|].
    intros k. case_decide as Hk; [by apply elem_of_nil in Hk|done].
  - simpl in H. apply bind_Ret_inv in H as (v & d1 & Hload & H).
    apply load_Ret_inv in Hload as [Hj ->].
    apply IH in H as (-> & Hall & Hf). split; [done|]. split.
    + intros k [->|Hk]%elem_of_cons; [by eexists|by apply Hall].
    + intros k. rewrite Hf. destruct (decide (k ∈ keys)) as [Hin|Hnin].
      * by rewrite decide_True by (apply elem_of_cons; by right).
      * destruct (decide (k = j)) as [->|Hne].
        -- rewrite decide_True by (apply elem_of_cons; by left).
           by rewrite lookup_insert_eq.
        -- rewrite decide_False by (rewrite elem_of_cons; by intros [?|?]).
           by rewrite lookup_insert_ne.
Qed.

(** * The sanitiser *)

Lemma tag_is_carried_reserved tag b :
  tag_is_carried tag = Ok b → negb (reserved_key tag) = b.
Proof.
  unfold tag_is_carried, reserved_key.
  destruct (getitem_key tag "Key") as [[]|]; simpl; try done.
  by intros [= <-].
Qed.

Lemma carry_tag_Ret_inv tag (d : dict) u d' :
  carry_tag tag d = (Ret u, d') →
  ∃ b, tag_is_carried tag = Ok b ∧
    if b then ∃ l, d !! "Tags" = Some (PList l) ∧ d' = <["Tags":=PList (l ++ [tag])]> d
    else d' = d.
Proof.
  unfold carry_tag. intros (b & d1 & [Hb ->]%lift_Ret_inv & H)%bind_Ret_inv.
  exists b. split; [done|]. destruct b.
  - by apply append_to_Ret_inv in H.
  - by injection H.
Qed.

(** The loop over the source tags extends the list under [Tags] with the
    tags that are not reserved, in their order. *)
Lemma carry_loop_Ret_inv tags : ∀ (d : dict) acc d',
  d !! "Tags" = Some (PList acc) →
  for_each tags carry_tag d = (Ret (), d') →
  Forall (λ t, ∃ b, tag_is_carried t = Ok b) tags ∧
  d' = <["Tags":=PList (acc ++ List.filter (λ t, negb (reserved_key t)) tags)]> d.
Proof.
  induction tags as [|tag tags IH]; intros d acc d' Hacc H.
  - injection H as <-. split; [done|].
    simpl. rewrite app_nil_r. by rewrite insert_id.
  - simpl in H. apply bind_Ret_inv in H as (u & d1 & Htag & H).
    apply carry_tag_Ret_inv in Htag as (b & Hb & Hd1).
    pose proof (tag_is_carried_reserved _ _ Hb) as Hres. simpl. rewrite Hres.
    destruct b.
    + destruct Hd1 as (l & Hl & ->). rewrite Hacc in Hl. injection Hl as <-.
      apply (IH _ (acc ++ [tag])) in H as [Hall ->];
        [|by rewrite lookup_insert_eq].
      split; [constructor; eauto|].
      by rewrite insert_insert_eq, <-app_assoc.
    + subst d1. apply (IH _ acc) in H as [Hall ->]; [|done].
      split; [constructor; eauto|done].
Qed.

Section Sanitiser.
Context (sourceinstance : string).

Lemma total_carry_tag tag : total (carry_tag tag).
Proof.
  apply total_bind; [apply total_lift|].
  intros []; [apply total_append_to|apply total_ret].
Qed.

(** The sanitiser has no loop that could run for ever. *)
Lemma total_sanitise : total (sanitise_instance_config sourceinstance).
Proof.
  unfold sanitise_instance_config.
  repeat first
    [ apply total_project
    | apply total_load | apply total_store | apply total_contains
    | apply total_lift
    | apply total_for_each; intros ?; apply total_carry_tag
    | match goal with |- total (if ?b then _ else _) => destruct b end
    | apply total_bind; [|intros ?] ].
Qed.

(** What a successful run of the sanitiser did: the three rewritten
    entries, the final state of its argument and the dictionary returned. *)
Lemma sanitise_Ret_inv (d : dict) f d' :
  sanitise_instance_config sourceinstance d = (Ret f, d') →
  ∃ groups sgs ids arn tags,
    d !! "SecurityGroups" = Some groups ∧
    py_iter groups = Ok sgs ∧
    map_result (λ sg, getitem_key sg "GroupId") sgs = Ok ids ∧
    match d !! "IamInstanceProfile" with
    | Some profile => getitem_key profile "Arn" = Ok arn
    | None => arn = PStr ""
    end ∧
    match d !! "Tags" with
    | Some tv => ∃ source_tags,
        py_iter tv = Ok source_tags ∧
        Forall (λ t, ∃ b, tag_is_carried t = Ok b) source_tags ∧
        tags = meta_tags sourceinstance
                 ++ List.filter (λ t, negb (reserved_key t)) source_tags
    | None => tags = meta_tags sourceinstance
    end ∧
    d' = <["Tags":=PList tags]>
           (<["IamInstanceProfile":=arn]>
              (<["SecurityGroups":=PList ids]> d)) ∧
    (∀ k, k ∈ filter_keys → is_Some (d' !! k)) ∧
    (∀ k, f !! k = if decide (k ∈ filter_keys) then d' !! k else None).
Proof.
  unfold sanitise_instance_config. intros H.
  apply bind_Ret_inv in H as (groups & ? & [Hsg ->]%load_Ret_inv & H).
  apply bind_Ret_inv in H as (sgs & ? & [Hsgs ->]%lift_Ret_inv & H).
  apply bind_Ret_inv in H as (ids & ? & [Hids ->]%lift_Ret_inv & H).
  apply bind_Ret_inv in H as ([] & ? & ->%store_Ret_inv & H).
  apply bind_Ret_inv in H as (has_profile & ? & [-> ->]%contains_Ret_inv & H).
  apply bind_Ret_inv in H as ([] & d2 & Hiam & H).
  rewrite lookup_insert_ne in Hiam by done.
  assert (∃ arn, match d !! "IamInstanceProfile" with
                 | Some profile => getitem_key profile "Arn" = Ok arn
                 | None => arn = PStr ""
                 end ∧
                 d2 = <["IamInstanceProfile":=arn]>
                        (<["SecurityGroups":=PList ids]> d))
    as (arn & Harn & ->).
  { destruct (d !! "IamInstanceProfile") as [profile|] eqn:Hprofile.
    - rewrite bool_decide_eq_true_2 in Hiam by eauto.
      apply bind_Ret_inv in Hiam as (p & ? & [Hp ->]%load_Ret_inv & Hiam).
      apply bind_Ret_inv in Hiam as (arn & ? & [Ha ->]%lift_Ret_inv & Hiam).
      apply store_Ret_inv in Hiam. exists arn. split; [|done].
      rewrite lookup_insert_ne, Hprofile in Hp by done. by injection Hp as <-.
    - rewrite bool_decide_eq_false_2 in Hiam by (by intros [? ?]).
      apply store_Ret_inv in Hiam. by exists (PStr ""). }
  apply bind_Ret_inv in H as (has_tags & ? & [-> ->]%contains_Ret_inv & H).
  apply bind_Ret_inv in H as ([] & d3 & Htags & H).
  apply project_Ret_inv in H as (-> & Hall & Hf).
  rewrite !lookup_insert_ne in Htags by done.
  exists groups, sgs, ids, arn.
  destruct (d !! "Tags") as [tv|] eqn:Htv.
  - rewrite bool_decide_eq_true_2 in Htags by eauto.
    apply bind_Ret_inv in Htags as (tv' & ? & [Htv' ->]%load_Ret_inv & Htags).
    rewrite !lookup_insert_ne, Htv in Htv' by done. injection Htv' as <-.
    apply bind_Ret_inv in Htags as ([] & ? & ->%store_Ret_inv & Htags).
    apply bind_Ret_inv in Htags as (source_tags & ? & [Hit ->]%lift_Ret_inv & Htags).
    apply (carry_loop_Ret_inv _ _ (meta_tags sourceinstance)) in Htags
      as [Hwf ->]; [|by rewrite lookup_insert_eq].
    rewrite insert_insert_eq in Hall, Hf |- *.
    eexists. repeat split; eauto.
  - rewrite bool_decide_eq_false_2 in Htags by (by intros [? ?]).
    apply store_Ret_inv in Htags as ->.
    eexists. repeat split; eauto.
Qed.

End Sanitiser.

Lemma example_sanitised_run :
  sanitise_instance_config "i-srcA" example_descriptor
  = (Ret example_sanitised, example_rewritten).
Proof. reflexivity. Qed.

Lemma filter_keys_elem k :
  k ∈ filter_keys ↔
  k = "ImageId" ∨ k = "InstanceType" ∨ k = "KeyName" ∨ k = "SubnetId" ∨
  k = "VpcId" ∨ k = "SecurityGroups" ∨ k = "IamInstanceProfile" ∨
  k = "EbsOptimized" ∨ k = "Tags".
Proof. unfold filter_keys. rewrite !elem_of_cons, elem_of_nil. tauto. Qed.

Lemma rewritten_keys_elem k :
  k ∈ rewritten_keys ↔
  k = "SecurityGroups" ∨ k = "IamInstanceProfile" ∨ k = "Tags".
Proof. unfold rewritten_keys. rewrite !elem_of_cons, elem_of_nil. tauto. Qed.

Lemma required_keys_elem k :
  k ∈ required_keys ↔
  k = "ImageId" ∨ k = "InstanceType" ∨ k = "KeyName" ∨ k = "SubnetId" ∨
  k = "VpcId" ∨ k = "SecurityGroups" ∨ k = "EbsOptimized".
Proof. unfold required_keys. rewrite !elem_of_cons, elem_of_nil. tauto. Qed.

Section SanitiserFacts.
Context (sourceinstance : string).
Local Abbreviation sanitise := (sanitise_instance_config sourceinstance).

(** The entries of the dictionary a successful run returns. *)
Lemma sanitise_fields (d : dict) f d' :
  sanitise d = (Ret f, d') →
  ∃ groups sgs ids arn tags,
    d !! "SecurityGroups" = Some groups ∧
    py_iter groups = Ok sgs ∧
    map_result (λ sg, getitem_key sg "GroupId") sgs = Ok ids ∧
    match d !! "IamInstanceProfile" with
    | Some profile => getitem_key profile "Arn" = Ok arn
    | None => arn = PStr ""
    end ∧
    match d !! "Tags" with
    | Some tv => ∃ source_tags,
        py_iter tv = Ok source_tags ∧
        Forall (λ t, ∃ b, tag_is_carried t = Ok b) source_tags ∧
        tags = meta_tags sourceinstance
                 ++ List.filter (λ t, negb (reserved_key t)) source_tags
    | None => tags = meta_tags sourceinstance
    end ∧
    f !! "SecurityGroups" = Some (PList ids) ∧
    f !! "IamInstanceProfile" = Some arn ∧
    f !! "Tags" = Some (PList tags) ∧
    (∀ k, k ∈ filter_keys → k ∉ rewritten_keys →
          f !! k = d !! k ∧ is_Some (d !! k)) ∧
    (∀ k, k ∈ rewritten_keys → d' !! k = f !! k) ∧
    (∀ k, k ∉ filter_keys → f !! k = None).
Proof.
  intros (groups & sgs & ids & arn & tags & Hsg & Hsgs & Hids & Harn & Htags
          & -> & Hall & Hf)%sanitise_Ret_inv.
  exists groups, sgs, ids, arn, tags.
  assert (∀ k, k ∈ filter_keys → f !! k =
    <["Tags":=PList tags]> (<["IamInstanceProfile":=arn]>
      (<["SecurityGroups":=PList ids]> d)) !! k) as Hin.
  { intros k Hk. by rewrite Hf, decide_True. }
  refine (conj Hsg (conj Hsgs (conj Hids (conj Harn (conj Htags _))))).
  split_and!.
  - rewrite Hin by (apply filter_keys_elem; tauto).
    rewrite !lookup_insert_ne by done. by rewrite lookup_insert_eq.
  - rewrite Hin by (apply filter_keys_elem; tauto).
    rewrite lookup_insert_ne by done. by rewrite lookup_insert_eq.
  - rewrite Hin by (apply filter_keys_elem; tauto).
    by rewrite lookup_insert_eq.
  - intros k Hk Hnot. rewrite rewritten_keys_elem in Hnot.
    specialize (Hall k Hk). rewrite Hin by done.
    rewrite !lookup_insert_ne in Hall |- *; [done|naive_solver..].
  - intros k Hk. rewrite Hin; [done|].
    apply filter_keys_elem. apply rewritten_keys_elem in Hk. tauto.
  - intros k Hk. by rewrite Hf, decide_False.
Qed.

End SanitiserFacts.

Lemma map_result_Ok {A B} (f : A → result B) l ys :
  map_result f l = Ok ys ↔ Forall2 (λ x y, f x = Ok y) l ys.
Proof.
  revert ys. induction l as [|x l IH]; intros ys; simpl.
  - split; [by intros [= <-]|by intros ->%Forall2_nil_inv_l].
  - unfold mbind, result_bind. split.
    + destruct (f x) as [y|] eqn:Hy; [|done].
      destruct (map_result f l) as [ys'|] eqn:Hys; [|done].
      intros [= <-]. constructor; [done|by apply IH].
    + intros (y & ys' & Hy & Hys & ->)%Forall2_cons_inv_l.
      apply IH in Hys. by rewrite Hy, Hys.
Qed.

Lemma Forall2_Ok_functional {A B} (f : A → result B) l ys zs :
  Forall2 (λ x y, f x = Ok y) l ys →
  Forall2 (λ x y, f x = Ok y) l zs → ys = zs.
Proof.
  intros H1%map_result_Ok H2%map_result_Ok. congruence.
Qed.

(** A tag with a key outside the reserved prefix is kept by the filter of
    the reserved tags. *)
Lemma count_key_unreserved k tags :
  String.prefix "aws:" k = false →
  count_key k (List.filter (λ t, negb (reserved_key t)) tags) = count_key k tags.
Proof.
  intros Hk. unfold count_key. f_equal.
  induction tags as [|t tags IH]; [done|]. simpl.
  destruct (has_key k t) eqn:Ht.
  - assert (reserved_key t = false) as ->.
    { unfold has_key, reserved_key in *.
      destruct (getitem_key t "Key") as [[]|]; try done.
      apply String.eqb_eq in Ht as ->. done. }
    simpl. by rewrite Ht, IH.
  - destruct (reserved_key t); simpl; [done|]. by rewrite Ht.
Qed.

(** C1: the tag list the sanitiser returns starts with the two provenance
    tags, the [CloneMethod] marker first and the [CloneSource] tag naming
    the source instance second, followed by every source tag whose key does
    not start with [aws:], in the order of the source; when the descriptor
    has no tags the list is the two provenance tags, of length 2. *)
Theorem C1_tags_provenance_then_unreserved sourceinstance (d : dict) f d' :
  sanitise_instance_config sourceinstance d = (Ret f, d') →
  (∀ source_tags, d !! "Tags" = Some (PList source_tags) →
     f !! "Tags" =
       Some (PList ([ make_tag "CloneMethod" "cloneEC2.py";
                      make_tag "CloneSource" sourceinstance ]
                    ++ List.filter (λ t, negb (reserved_key t)) source_tags))) ∧
  (d !! "Tags" = None →
     f !! "Tags" = Some (PList [ make_tag "CloneMethod" "cloneEC2.py";
                                 make_tag "CloneSource" sourceinstance ])) ∧
  (d !! "Tags" = None ∨ d !! "Tags" = Some (PList []) →
     ∃ tags, f !! "Tags" = Some (PList tags) ∧ length tags = 2).
Proof.
  intros (groups & sgs & ids & arn & tags & _ & _ & _ & _ & Htags & _ & _
          & Hf & _)%sanitise_fields.
  split_and!.
  - intros source_tags Hd. rewrite Hd in Htags.
    destruct Htags as (? & [= <-] & _ & ->). done.
  - intros Hd. rewrite Hd in Htags. by subst tags.
  - intros [Hd|Hd]; rewrite Hd in Htags; eexists; (split; [exact Hf|]).
    + by subst tags.
    + destruct Htags as (? & [= <-] & _ & ->). done.
Qed.

Lemma C1_witness :
  example_sanitised !! "Tags" =
    Some (PList ([ make_tag "CloneMethod" "cloneEC2.py";
                   make_tag "CloneSource" "i-srcA" ]
                 ++ List.filter (λ t, negb (reserved_key t))
                      [ make_tag "aws:autoscaling:groupName" "foo";
                        make_tag "Environment" "prod" ])).
Proof.
  apply (C1_tags_provenance_then_unreserved "i-srcA" example_descriptor
           example_sanitised example_rewritten).
  - reflexivity.
  - reflexivity.
Defined.

(** C2, as stated, fails when the source instance is itself a clone: its
    own [CloneMethod] and [CloneSource] tags are carried over, so each key
    occurs twice in the sanitised tag list. *)
Lemma C2_counterexample :
  ∃ f tags,
    (sanitise_instance_config "i-0clone" cloned_descriptor).1 = Ret f ∧
    f !! "Tags" = Some (PList tags) ∧
    count_key "CloneMethod" tags = 2 ∧
    count_key "CloneSource" tags = 2.
Proof.
  exists (<["Tags" := PList [ make_tag "CloneMethod" "cloneEC2.py";
                             make_tag "CloneSource" "i-0clone";
                             make_tag "CloneMethod" "cloneEC2.py";
                             make_tag "CloneSource" "i-0original";
                             make_tag "Environment" "prod" ]]>
            example_sanitised),
         [ make_tag "CloneMethod" "cloneEC2.py";
           make_tag "CloneSource" "i-0clone";
           make_tag "CloneMethod" "cloneEC2.py";
           make_tag "CloneSource" "i-0original";
           make_tag "Environment" "prod" ].
  split_and!; reflexivity.
Qed.

(** C2, amended: the two provenance tags are always the first two entries
    of the sanitised tag list, before every carried-over source tag; the
    source tags are not searched for the same keys, so [CloneMethod] and
    [CloneSource] each occur once more than among the source tags. *)
Theorem C2_provenance_first_source_tags_kept sourceinstance (d : dict) f d' :
  sanitise_instance_config sourceinstance d = (Ret f, d') →
  ∃ carried,
    f !! "Tags" = Some (PList (make_tag "CloneMethod" "cloneEC2.py"
                               :: make_tag "CloneSource" sourceinstance
                               :: carried)) ∧
    (d !! "Tags" = None → carried = []) ∧
    (∀ source_tags, d !! "Tags" = Some (PList source_tags) →
       carried = List.filter (λ t, negb (reserved_key t)) source_tags ∧
       count_key "CloneMethod"
         (make_tag "CloneMethod" "cloneEC2.py"
          :: make_tag "CloneSource" sourceinstance :: carried)
       = 1 + count_key "CloneMethod" source_tags ∧
       count_key "CloneSource"
         (make_tag "CloneMethod" "cloneEC2.py"
          :: make_tag "CloneSource" sourceinstance :: carried)
       = 1 + count_key "CloneSource" source_tags).
Proof.
  intros (groups & sgs & ids & arn & tags & _ & _ & _ & _ & Htags & _ & _
          & Hf & _)%sanitise_fields.
  destruct (d !! "Tags") as [tv|].
  - destruct Htags as (source_tags & Hit & _ & ->).
    exists (List.filter (λ t, negb (reserved_key t)) source_tags).
    split; [done|]. split; [done|].
    intros ? [= ->]. injection Hit as <-. split; [done|].
    change (count_key ?k (?a :: ?b :: ?l))
      with (length (List.filter (has_key k) [a; b]) + count_key k l)%nat.
    by rewrite !count_key_unreserved.
  - subst tags. exists []. split; [done|]. split; [done|]. by intros.
Qed.

Lemma C2_witness :
  ∃ carried,
    example_sanitised !! "Tags"
    = Some (PList (make_tag "CloneMethod" "cloneEC2.py"
                   :: make_tag "CloneSource" "i-srcA" :: carried)) ∧
    carried = [ make_tag "Environment" "prod" ].
Proof.
  destruct (C2_provenance_first_source_tags_kept "i-srcA" example_descriptor
              example_sanitised example_rewritten)
    as (carried & Hf & _ & Hsome).
  - reflexivity.
  - exists carried. split; [exact Hf|].
    destruct (Hsome _ eq_refl) as [-> _]. reflexivity.
Defined.

(** C7: the dictionary the sanitiser returns always has an
    [IamInstanceProfile] entry: the [Arn] of the profile record when the
    descriptor has one, the empty string when the descriptor has no
    [IamInstanceProfile] key. *)
Theorem C7_iam_profile_arn_or_empty sourceinstance (d : dict) f d' :
  sanitise_instance_config sourceinstance d = (Ret f, d') →
  is_Some (f !! "IamInstanceProfile") ∧
  (∀ profile, d !! "IamInstanceProfile" = Some profile →
     ∃ arn, getitem_key profile "Arn" = Ok arn ∧
            f !! "IamInstanceProfile" = Some arn) ∧
  (d !! "IamInstanceProfile" = None →
     f !! "IamInstanceProfile" = Some (PStr "")).
Proof.
  intros (groups & sgs & ids & arn & tags & _ & _ & _ & Harn & _ & _ & Hf
          & _)%sanitise_fields.
  split_and!.
  - by eexists.
  - intros profile Hd. rewrite Hd in Harn. by exists arn.
  - intros Hd. rewrite Hd in Harn. by subst arn.
Qed.

Lemma C7_witness :
  (∃ arn,
     getitem_key (PDict {[ "Arn" := PStr "arn:aws:iam::1:instance-profile/app";
                          "Id" := PStr "AIPA1" ]}) "Arn" = Ok arn ∧
     example_sanitised !! "IamInstanceProfile" = Some arn) ∧
  bare_descriptor !! "IamInstanceProfile" = None ∧
  bare_sanitised !! "IamInstanceProfile" = Some (PStr "").
Proof.
  split.
  - apply (C7_iam_profile_arn_or_empty "i-srcA" example_descriptor
             example_sanitised example_rewritten).
    + reflexivity.
    + reflexivity.
  - split; [reflexivity|].
    apply (C7_iam_profile_arn_or_empty "i-srcA" bare_descriptor bare_sanitised
             (sanitise_instance_config "i-srcA" bare_descriptor).2).
    + reflexivity.
    + reflexivity.
Defined.

(** C8: the [SecurityGroups] entry the sanitiser returns is the list of the
    [GroupId] entries of the descriptor's group records, one per record and
    in their order; when these ids are strings it is a flat list of
    strings, and no record is left in it. *)
Theorem C8_security_groups_are_the_ids sourceinstance (d : dict) f d' :
  sanitise_instance_config sourceinstance d = (Ret f, d') →
  ∀ records, d !! "SecurityGroups" = Some (PList records) →
    (∃ ids,
       Forall2 (λ record id, getitem_key record "GroupId" = Ok id) records ids ∧
       f !! "SecurityGroups" = Some (PList ids) ∧
       length ids = length records) ∧
    (∀ ids : list string,
       Forall2 (λ record id, getitem_key record "GroupId" = Ok (PStr id))
         records ids →
       f !! "SecurityGroups" = Some (PList (PStr <$> ids))).
Proof.
  intros (groups & sgs & ids & arn & tags & Hsg & Hsgs & Hids & _ & _ & Hf
          & _)%sanitise_fields records Hd.
  rewrite Hd in Hsg. injection Hsg as <-. injection Hsgs as <-.
  apply map_result_Ok in Hids. split.
  - exists ids. split; [done|]. split; [done|].
    symmetry. by eapply Forall2_length.
  - intros strs Hstrs. rewrite Hf. do 2 f_equal.
    eapply Forall2_Ok_functional; [exact Hids|].
    by apply Forall2_fmap_r.
Qed.

Lemma C8_witness :
  example_sanitised !! "SecurityGroups" = Some (PList (PStr <$> ["sg-1"; "sg-2"])).
Proof.
  apply (C8_security_groups_are_the_ids "i-srcA" example_descriptor
           example_sanitised example_rewritten
           eq_refl
           [make_group "sg-1" "web"; make_group "sg-2" "db"] eq_refl).
  repeat constructor.
Defined.

(** C9, as stated, fails: after the sanitiser ran on [example_descriptor]
    the [SecurityGroups], [IamInstanceProfile] and [Tags] entries of that
    very dictionary hold the sanitised values, not the fetched ones. *)
Lemma C9_counterexample :
  let after := (sanitise_instance_config "i-srcA" example_descriptor).2 in
  example_descriptor !! "SecurityGroups"
    = Some (PList [make_group "sg-1" "web"; make_group "sg-2" "db"]) ∧
  after !! "SecurityGroups" = Some (PList [PStr "sg-1"; PStr "sg-2"]) ∧
  after !! "IamInstanceProfile"
    = Some (PStr "arn:aws:iam::1:instance-profile/app") ∧
  after !! "Tags" = Some (PList [ make_tag "CloneMethod" "cloneEC2.py";
                                  make_tag "CloneSource" "i-srcA";
                                  make_tag "Environment" "prod" ]) ∧
  after ≠ example_descriptor.
Proof.
  split_and!; try reflexivity.
  intros Heq.
  assert ((sanitise_instance_config "i-srcA" example_descriptor).2
            !! "SecurityGroups" = Some (PList [PStr "sg-1"; PStr "sg-2"])) as H1
    by reflexivity.
  assert (example_descriptor !! "SecurityGroups"
          = Some (PList [make_group "sg-1" "web"; make_group "sg-2" "db"]))
    as H2 by reflexivity.
  rewrite Heq, H2 in H1. discriminate H1.
Qed.

(** The sanitiser leaves alone every entry of its argument outside the
    three it rewrites, whether it returns or raises. *)
Lemma sanitise_preserves sourceinstance k :
  k ∉ rewritten_keys →
  preserves (same_at k) (sanitise_instance_config sourceinstance).
Proof.
  rewrite rewritten_keys_elem. intros Hk.
  assert (∀ tag, preserves (same_at k) (carry_tag tag)) as Hcarry.
  { intros tag. apply preserves_bind; [apply _|apply preserves_lift, _|].
    intros []; [apply preserves_append_to; naive_solver|apply preserves_ret, _]. }
  unfold sanitise_instance_config.
  repeat first
    [ match goal with |- PreOrder _ => apply _ end
    | apply preserves_project
    | apply preserves_load | apply preserves_contains
    | apply preserves_lift
    | apply preserves_store; naive_solver
    | apply preserves_for_each; [apply _|exact Hcarry]
    | match goal with |- preserves _ (if ?b then _ else _) => destruct b end
    | apply preserves_bind; [apply _| |intros ?] ].
Qed.

(** C9, amended: the sanitiser works on the descriptor it is given.  It
    overwrites the [SecurityGroups], [IamInstanceProfile] and [Tags] entries
    of that dictionary with the sanitised values it returns, and leaves
    every other entry as fetched, whatever the outcome. *)
Theorem C9_only_three_entries_rewritten sourceinstance (d : dict) :
  (∀ k, k ∉ rewritten_keys →
     (sanitise_instance_config sourceinstance d).2 !! k = d !! k) ∧
  (∀ f d', sanitise_instance_config sourceinstance d = (Ret f, d') →
     ∀ k, k ∈ rewritten_keys → d' !! k = f !! k).
Proof.
  split.
  - intros k Hk. apply (sanitise_preserves sourceinstance k Hk d).
  - intros f d' (groups & sgs & ids & arn & tags & _ & _ & _ & _ & _ & _ & _
                 & _ & _ & Hrew & _)%sanitise_fields. exact Hrew.
Qed.

Lemma C9_witness :
  (sanitise_instance_config "i-srcA" example_descriptor).2 !! "LaunchTime"
    = example_descriptor !! "LaunchTime" ∧
  example_rewritten !! "Tags" = example_sanitised !! "Tags".
Proof.
  pose proof (C9_only_three_entries_rewritten "i-srcA" example_descriptor)
    as [Hframe Hrew].
  split.
  - apply Hframe. rewrite rewritten_keys_elem. intros [H|[H|H]]; discriminate H.
  - apply (Hrew example_sanitised example_rewritten).
    + reflexivity.
    + rewrite rewritten_keys_elem. right. right. reflexivity.
Defined.

(** * The merge *)

(** Copying a dictionary entry by entry builds the same dictionary: the
    loop of [modify_instance_config] makes [append_config] a copy of
    [kwargs]. *)
Lemma copy_by_insert (kwargs : dict) :
  map_fold (λ key value acc, <[key:=value]> acc) ∅ kwargs = kwargs.
Proof.
  apply (map_fold_weak_ind (λ r m, r = m)); [done|].
  by intros k v m r _ ->.
Qed.

Lemma modify_instance_config_Ok (source_config kwargs new_config : dict) :
  modify_instance_config source_config kwargs = Ok new_config →
  kwargs !! "source_config" = None ∧ new_config = kwargs ∪ source_config.
Proof.
  unfold modify_instance_config. case_bool_decide as Hkw; [done|].
  intros [= <-]. rewrite copy_by_insert. split; [|done].
  by apply eq_None_not_Some.
Qed.

Lemma modify_instance_config_lookup (source_config kwargs new_config : dict) k :
  modify_instance_config source_config kwargs = Ok new_config →
  new_config !! k =
    match kwargs !! k with
    | Some v => Some v
    | None => source_config !! k
    end.
Proof.
  intros [_ ->]%modify_instance_config_Ok. rewrite lookup_union.
  destruct (kwargs !! k), (source_config !! k); done.
Qed.

(** The entries of the effective configuration: an override first, then
    the resolved image id under [ImageId], then the sanitised entry. *)
Lemma effective_config_lookup (sysargv_config : gmap string string)
    (sanitised : dict) ami new_config k :
  effective_config sysargv_config sanitised ami = Ok new_config →
  new_config !! k =
    match sysargv_config !! k with
    | Some v => Some (PStr v)
    | None => if decide (k = "ImageId") then Some ami else sanitised !! k
    end.
Proof.
  unfold effective_config. intros H.
  rewrite (modify_instance_config_lookup _ _ _ k H).
  rewrite lookup_union, lookup_fmap.
  case_decide as Hk.
  - subst k. rewrite lookup_singleton_eq.
    by destruct (sysargv_config !! "ImageId").
  - rewrite lookup_singleton_ne by done.
    by destruct (sysargv_config !! k).
Qed.

(** C3, as stated, fails for the key [ImageId] when no image override is
    given: the key is in the sanitised configuration only, and the
    effective value is the resolved image id, not the sanitised value. *)
Lemma C3_counterexample :
  ∃ new_config,
    effective_config ∅ example_sanitised (PStr "ami-0new") = Ok new_config ∧
    (∅ : gmap string string) !! "ImageId" = None ∧
    example_sanitised !! "ImageId" = Some (PStr "ami-0source") ∧
    new_config !! "ImageId" = Some (PStr "ami-0new") ∧
    new_config !! "ImageId" ≠ example_sanitised !! "ImageId".
Proof.
  exists (<["ImageId" := PStr "ami-0new"]> example_sanitised).
  split_and!; try reflexivity.
  intros Heq.
  apply (f_equal (λ o, match o with
                       | Some (PStr "ami-0new") => true
                       | _ => false
                       end)) in Heq.
  discriminate Heq.
Qed.

(** C3, amended: the merge is right-biased, a key of the keyword arguments
    has their value in the merged configuration and any other key keeps the
    value of the sanitised configuration.  In the effective configuration
    every command-line override wins, a caller-supplied [ImageId] also over
    the resolved image id; without an [ImageId] override the effective
    [ImageId] is the resolved image id; every other key without an override
    has the sanitised value. *)
Theorem C3_merge_right_biased (sysargv_config : gmap string string)
    (sanitised : dict) (ami : pyval) (new_config : dict) :
  effective_config sysargv_config sanitised ami = Ok new_config →
  (∀ (kwargs merged : dict),
     modify_instance_config sanitised kwargs = Ok merged →
     (∀ k v, kwargs !! k = Some v → merged !! k = Some v) ∧
     (∀ k, kwargs !! k = None → merged !! k = sanitised !! k)) ∧
  (∀ k v, sysargv_config !! k = Some v → new_config !! k = Some (PStr v)) ∧
  (sysargv_config !! "ImageId" = None → new_config !! "ImageId" = Some ami) ∧
  (∀ k, k ≠ "ImageId" → sysargv_config !! k = None →
        new_config !! k = sanitised !! k).
Proof.
  intros H. split_and!.
  - intros kwargs merged Hm. split.
    + intros k v Hk. by rewrite (modify_instance_config_lookup _ _ _ k Hm), Hk.
    + intros k Hk. by rewrite (modify_instance_config_lookup _ _ _ k Hm), Hk.
  - intros k v Hk. by rewrite (effective_config_lookup _ _ _ _ k H), Hk.
  - intros Hk. by rewrite (effective_config_lookup _ _ _ _ _ H), Hk.
  - intros k Hne Hk. rewrite (effective_config_lookup _ _ _ _ k H), Hk.
    by rewrite decide_False.
Qed.

Lemma C3_witness :
  example_effective !! "ImageId" = Some (PStr "ami-X") ∧
  example_effective !! "SubnetId" = Some (PStr "subnet-Y") ∧
  example_effective !! "KeyName" = example_sanitised !! "KeyName".
Proof.
  destruct (C3_merge_right_biased example_overrides example_sanitised
              (PStr "ami-X") example_effective) as (_ & Hover & _ & Hkeep).
  - reflexivity.
  - split; [apply Hover; reflexivity|].
    split; [apply Hover; reflexivity|].
    apply Hkeep; [discriminate|reflexivity].
Defined.

(** * The launch *)

Lemma launch_keys_elem k :
  k ∈ launch_keys ↔
  k = "ImageId" ∨ k = "InstanceType" ∨ k = "KeyName" ∨ k = "SubnetId" ∨
  k = "SecurityGroups" ∨ k = "EbsOptimized" ∨ k = "IamInstanceProfile" ∨
  k = "Tags".
Proof. unfold launch_keys. rewrite !elem_of_cons, elem_of_nil. tauto. Qed.

Lemma run_instances_kwargs_agree (c1 c2 : dict) :
  (∀ k, k ∈ launch_keys → c1 !! k = c2 !! k) →
  run_instances_kwargs c1 = run_instances_kwargs c2.
Proof.
  intros H. unfold run_instances_kwargs, getitem_key.
  rewrite !H by (apply launch_keys_elem; tauto). done.
Qed.

Lemma run_instance_agree env region (c1 c2 : dict) :
  (∀ k, k ∈ launch_keys → c1 !! k = c2 !! k) →
  run_instance env region c1 = run_instance env region c2.
Proof.
  intros H. unfold run_instance. by rewrite (run_instances_kwargs_agree c1 c2).
Qed.

(** C10: the launch reads only the eight keys of [launch_keys].  Two
    configurations that agree on them give the same keyword arguments and
    the same run of [run_instance]; so a key outside them in the merged
    configuration, [VpcId] or an unrecognised command-line override, does
    not change the launch. *)
Theorem C10_launch_reads_only_launch_keys env region :
  (∀ c1 c2 : dict,
     (∀ k, k ∈ launch_keys → c1 !! k = c2 !! k) →
     run_instances_kwargs c1 = run_instances_kwargs c2 ∧
     ∀ h, run_instance env region c1 h = run_instance env region c2 h) ∧
  (∀ (c : dict) k v h,
     k ∉ launch_keys →
     run_instance env region (<[k:=v]> c) h = run_instance env region c h) ∧
  (∀ (sysargv_config : gmap string string) (sanitised : dict) ami k v c c' h,
     k ∉ launch_keys →
     effective_config sysargv_config sanitised ami = Ok c →
     effective_config (<[k:=v]> sysargv_config) sanitised ami = Ok c' →
     run_instance env region c' h = run_instance env region c h).
Proof.
  split_and!.
  - intros c1 c2 H. split; [by apply run_instances_kwargs_agree|].
    intros h. by rewrite (run_instance_agree env region c1 c2).
  - intros c k v h Hk. rewrite (run_instance_agree env region _ c); [done|].
    intros j Hj. apply lookup_insert_ne. by intros ->.
  - intros cfg s ami k v c c' h Hk Hc Hc'.
    rewrite (run_instance_agree env region c' c); [done|].
    intros j Hj.
    rewrite (effective_config_lookup _ _ _ _ j Hc),
      (effective_config_lookup _ _ _ _ j Hc').
    rewrite lookup_insert_ne; [done|by intros ->].
Qed.

Lemma C10_witness :
  run_instance example_env "r1" (<["VpcId":=PStr "vpc-2"]> example_effective) []
  = run_instance example_env "r1" example_effective [] ∧
  run_instance example_env "r1" (<["Colour":=PStr "blue"]> example_effective) []
  = run_instance example_env "r1" example_effective [].
Proof.
  destruct (C10_launch_reads_only_launch_keys example_env "r1")
    as (_ & Hextra & _).
  split; apply Hextra; rewrite launch_keys_elem;
    intros [H|[H|[H|[H|[H|[H|[H|H]]]]]]]; discriminate H.
Defined.

(** * Histories *)

Lemma count_events_app p h1 h2 :
  count_events p (h1 ++ h2) = count_events p h1 + count_events p h2.
Proof. unfold count_events. by rewrite List.filter_app, length_app. Qed.






Lemma before_merge_no_launch evs :
  Forall before_merge evs →
  count_events is_launch evs = 0 ∧ merge_banner ∉ evs.
Proof.
  induction 1 as [|e evs [Hl Hb] _ [IH1 IH2]].
  - split; [done|]. by intros ?%elem_of_nil.
  - split.
    + unfold count_events in *. simpl. by rewrite Hl.
    + intros [Heq|Hin]%elem_of_cons; [by apply Hb|by apply IH2].
Qed.

(** ** What a computation adds to the history *)

Section Emits.
Context (φ : event → Prop).

Lemma emits_ret {A} (a : A) : emits φ (mret a).
Proof. intros h. exists []. by rewrite app_nil_r. Qed.

Lemma emits_raise {A} e : emits φ (raise (A:=A) e).
Proof. intros h. exists []. by rewrite app_nil_r. Qed.

Lemma emits_diverge {A} : emits φ (diverge (A:=A)).
Proof. intros h. exists []. by rewrite app_nil_r. Qed.

Lemma emits_lift {A} (r : result A) : emits φ (lift r).
Proof. destruct r; [apply emits_ret|apply emits_raise]. Qed.

Lemma emits_run_on {T A} (obj : T) (m : M T A) : emits φ (run_on obj m).
Proof. intros h. exists []. by rewrite app_nil_r. Qed.

Lemma emits_emit e : φ e → emits φ (emit e).
Proof. intros He h. exists [e]. split; [done|by constructor]. Qed.

Lemma emits_call env rq : (∀ resp, φ (Call rq resp)) → emits φ (call env rq).
Proof.
  intros Hrq h. unfold call.
  destruct (ec2 env h rq); eexists [_]; (split; [done|by constructor]).
Qed.

Lemma emits_random_choice env seq :
  (∀ c, φ (Choice c)) → emits φ (random_choice env seq).
Proof.
  intros Hc h. unfold random_choice.
  destruct (String.get _ seq).
  - eexists [_]. split; [done|by constructor].
  - exists []. by rewrite app_nil_r.
Qed.

Lemma emits_bind {A B} (m : IO A) (f : A → IO B) :
  emits φ m → (∀ a, emits φ (f a)) → emits φ (m ≫= f).
Proof.
  intros Hm Hf h. destruct (Hm h) as (evs & Hh & Hevs).
  unfold mbind, M_bind. destruct (m h) as [[a|e|] h1]; simpl in Hh; subst h1.
  - destruct (Hf a (h ++ evs)) as (evs' & -> & Hevs').
    exists (evs ++ evs'). split; [by rewrite app_assoc|by apply Forall_app].
  - by exists evs.
  - by exists evs.
Qed.

Lemma emits_random_letters env letters n :
  (∀ c, φ (Choice c)) → emits φ (random_letters env letters n).
Proof.
  intros Hc. induction n as [|n IH]; [apply emits_ret|]. simpl.
  apply emits_bind; [by apply emits_random_choice|]. intros c.
  apply emits_bind; [done|]. intros rest. apply emits_ret.
Qed.

End Emits.

(** One step of a proof that a straight-line computation adds only events
    that [side] accepts. *)
Ltac emits_step side :=
  first
    [ apply emits_ret | apply emits_raise | apply emits_diverge
    | apply emits_lift | apply emits_run_on
    | apply emits_emit; side
    | apply emits_call; intros ?; side
    | apply emits_random_letters; intros ?; side
    | match goal with
      | |- emits _ (match ?x with _ => _ end) => destruct x
      end
    | apply emits_bind; [|intros ?] ].


(** * The pipeline *)

Section Pipeline.
Context (env : environment) (region sourceinstance : string).
Context (sysargv_config : gmap string string).

Lemma wait_available_emits φ fuel ami :
  (∀ resp, φ (Call (DescribeImages region (PList [ami])) resp)) →
  φ (Sleep 5) →
  φ (Print (PStr "...Still waiting for AMI to become available...")) →
  emits φ (wait_available env region fuel ami).
Proof.
  intros Hcall Hsleep Hprint.
  induction fuel as [|fuel IH]; simpl; [apply emits_diverge|].
  unfold image_status, sleep, print.
  repeat first [ exact IH | emits_step ltac:(first [apply Hcall|done]) ].
Qed.




End Pipeline.

Section Resolve.
Context (env : environment) (region sourceinstance : string).
Context (sysargv_config : gmap string string).
Local Abbreviation resolve :=
  (resolve_image env region sourceinstance sysargv_config).



(** The header of [main] neither launches nor prints the banner of the
    merge. *)
Lemma resolve_image_before_merge fuel : emits before_merge (resolve fuel).
Proof.
  unfold resolve_image, create_image.
  repeat first
    [ apply wait_available_emits; [intros ?|..]; (split; [done|by intros [=]])
    | progress unfold image_status, print, sleep
    | emits_step ltac:(split; [done|by intros [=]]) ].
Qed.

End Resolve.

Lemma run_instances_kwargs_image (config kwargs : dict) :
  run_instances_kwargs config = Ok kwargs →
  kwargs !! "ImageId" = config !! "ImageId".
Proof.
  unfold run_instances_kwargs, getitem_key, mbind, result_bind.
  destruct (config !! "ImageId"); [|done].
  repeat match goal with
         | |- context [match ?c !! ?k with _ => _ end] =>
             destruct (c !! k); [|done]
         end.
  intros [= <-]. by rewrite lookup_insert_eq.
Qed.

Section Launch.
Context (env : environment) (region sourceinstance : string).
Context (sysargv_config : gmap string string).
Local Abbreviation clone :=
  (launch_clone env region sourceinstance sysargv_config).


(** When the descriptor fetched makes the sanitiser raise, the second
    part of [main] raises the same exception, before the banner of the
    merge and before any launch. *)
Lemma launch_clone_stops_at_sanitiser (d : dict) e ami h :
  (∀ h', (get_instance_config env region sourceinstance h').1 = Ret (PDict d)) →
  (sanitise_instance_config sourceinstance d).1 = Raise e →
  ∃ evs, clone ami h = (Raise e, h ++ evs) ∧ Forall before_merge evs.
Proof.
  intros Hfetch Hraise. unfold launch_clone.
  match goal with
  | |- context [print ?msg ≫= _] => set (banner := Print msg)
  end.
  match goal with
  | |- context [get_instance_config _ _ _ ≫= ?f] => set (rest := f)
  end.
  change ((print _ ≫= _) h) with
    ((get_instance_config env region sourceinstance ≫= rest) (h ++ [banner])).
  assert (emits before_merge (get_instance_config env region sourceinstance))
    as Hemits.
  { unfold get_instance_config.
    repeat emits_step ltac:(split; [done|by intros [=]]). }
  destruct (Hemits (h ++ [banner])) as (evs & Hh & Hevs).
  specialize (Hfetch (h ++ [banner])).
  destruct (get_instance_config env region sourceinstance (h ++ [banner]))
    as [o h1] eqn:E.
  simpl in Hh, Hfetch. subst o h1.
  rewrite (bind_Ret _ _ _ _ _ E). subst rest. cbv beta.
  match goal with
  | |- context [print ?msg ≫= _] => set (banner2 := Print msg)
  end.
  exists ([banner] ++ evs ++ [banner2]). split.
  - rewrite !app_assoc. unfold mbind, M_bind, print, emit, sanitise_fetched, run_on.
    by rewrite Hraise.
  - assert (∀ msg, msg ≠ nl +:+ "<= Modified EC2 configuration:" →
              Forall before_merge [Print (PStr msg)]) as Hprint.
    { intros msg Hmsg. constructor; [|constructor].
      split; [done|]. intros [= ->]. by apply Hmsg. }
    apply Forall_app. split; [by apply Hprint|].
    apply Forall_app. split; [done|by apply Hprint].
Qed.

End Launch.



(** The scenario without override: one image creation, three queries in the
    loop and one for the status line, one launch from the new image. *)
Lemma scenario_no_override :
  let run := main example_env "r1" "i-srcA" ∅ 3 [] in
  run.1 = Ret () ∧
  created_images run.2 = [Ok (PStr "ami-0new")] ∧
  count_events is_image_poll run.2 = 4 ∧
  launched_images run.2 = [Some (PStr "ami-0new")].
Proof. split_and!; reflexivity. Qed.

(** The scenario with an image and a subnet override: no image call, one
    launch from the override. *)
Lemma scenario_image_subnet_override :
  let run := main example_env "r1" "i-srcA" example_overrides 0 [] in
  run.1 = Ret () ∧
  created_images run.2 = [] ∧
  count_events is_image_poll run.2 = 0 ∧
  launched_images run.2 = [Some (PStr "ami-X")] ∧
  Print (PDict example_effective) ∈ run.2.
Proof.
  split_and!; try reflexivity.
  apply list_elem_of_lookup. exists 6. reflexivity.
Qed.

(** C6: a descriptor without one of [ImageId], [InstanceType], [KeyName],
    [SubnetId], [VpcId], [SecurityGroups] or [EbsOptimized] makes the
    sanitiser raise; when the provider describes the source instance so,
    [main] does not return, does not reach the merge and launches
    nothing. *)
Theorem C6_missing_required_key_raises env region sourceinstance
    (sysargv_config : gmap string string) (d : dict) k :
  k ∈ required_keys → d !! k = None →
  (∃ e, (sanitise_instance_config sourceinstance d).1 = Raise e) ∧
  ((∀ h', (get_instance_config env region sourceinstance h').1
          = Ret (PDict d)) →
   ∀ fuel h, ∃ evs,
     (main env region sourceinstance sysargv_config fuel h).2 = h ++ evs ∧
     (main env region sourceinstance sysargv_config fuel h).1 ≠ Ret () ∧
     count_events is_launch evs = 0 ∧
     merge_banner ∉ evs).
Proof.
  intros Hk Hd.
  assert (∃ e, (sanitise_instance_config sourceinstance d).1 = Raise e)
    as [e He].
  { destruct (sanitise_instance_config sourceinstance d) as [[f|e|] d'] eqn:E.
    - exfalso.
      apply sanitise_fields in E
        as (groups & sgs & ids & arn & tags & Hsg & _ & _ & _ & _ & _ & _ & _
            & Hkeep & _).
      assert (k = "SecurityGroups" ∨ (k ∈ filter_keys ∧ k ∉ rewritten_keys))
        as [->|[Hin Hout]].
      { rewrite filter_keys_elem, rewritten_keys_elem.
        apply required_keys_elem in Hk.
        destruct Hk as [->|[->|[->|[->|[->|[->| ->]]]]]];
          first [by left|right; split; [tauto|by intros [?|[?|?]]]]. }
      + congruence.
      + destruct (Hkeep k Hin Hout) as [_ [v Hv]]. congruence.
    - by exists e.
    - exfalso. apply (total_sanitise sourceinstance d). by rewrite E. }
  split; [by exists e|]. intros Hfetch fuel h. unfold main.
  destruct (resolve_image_before_merge env region sourceinstance
              sysargv_config fuel h) as (evs & Hh & Hevs).
  destruct (resolve_image env region sourceinstance sysargv_config fuel h)
    as [[ami|e1|] h1] eqn:E; simpl in Hh; subst h1.
  - rewrite (bind_Ret _ _ _ _ _ E).
    destruct (launch_clone_stops_at_sanitiser env region sourceinstance
                sysargv_config d e ami (h ++ evs) Hfetch He)
      as (evs' & -> & Hevs').
    exists (evs ++ evs'). split; [by rewrite app_assoc|]. split; [done|].
    apply before_merge_no_launch. by apply Forall_app.
  - rewrite (bind_Raise _ _ _ _ _ E). exists evs. split; [done|].
    split; [done|]. by apply before_merge_no_launch.
  - rewrite (bind_Diverge _ _ _ _ E). exists evs. split; [done|].
    split; [done|]. by apply before_merge_no_launch.
Qed.

(** The scenario of the missing [SubnetId]: the sanitiser raises [KeyError]
    for that key. *)
Lemma scenario_missing_subnet :
  (sanitise_instance_config "i-srcA" descriptor_without_subnet).1
  = Raise (KeyError (PStr "SubnetId")).
Proof. reflexivity. Qed.

Lemma C6_witness :
  (∃ e, (sanitise_instance_config "i-srcA" descriptor_without_subnet).1
        = Raise e) ∧
  ∃ evs,
    (main subnetless_env "r1" "i-srcA" ∅ 3 []).2 = [] ++ evs ∧
    (main subnetless_env "r1" "i-srcA" ∅ 3 []).1 ≠ Ret () ∧
    count_events is_launch evs = 0 ∧
    merge_banner ∉ evs.
Proof.
  destruct (C6_missing_required_key_raises subnetless_env "r1" "i-srcA" ∅
              descriptor_without_subnet "SubnetId") as [Hraise Hmain].
  - apply required_keys_elem. do 3 right. left. reflexivity.
  - reflexivity.
  - split; [exact Hraise|]. apply Hmain. intros h'. reflexivity.
Defined.

(** * The polling loop *)

Section Polling.
Context (env : environment) (region : string) (ami : pyval).
Local Abbreviation polls := (count_events is_image_poll).
Local Abbreviation wait := (wait_available env region).

(** A query of the image state adds one call to the history. *)
Lemma image_status_history h :
  ∃ response,
    (image_status env region ami h).2
    = h ++ [Call (DescribeImages region (PList [ami])) response].
Proof.
  unfold image_status, mbind, M_bind, call.
  destruct (ec2 env h _) as [response|e]; [|by eexists].
  exists (Ok response).
  destruct (getitem_key response "Images") as [images|]; [|done]. simpl.
  destruct (getitem_idx images 0) as [image|]; [|done]. simpl.
  by destruct (getitem_key image "State").
Qed.

(** Between two queries the loop sleeps, prints and sleeps. *)
Lemma still_waiting_run {A} (k : IO A) h :
  (sleep 5;;
   print (PStr "...Still waiting for AMI to become available...");;
   sleep 5;; k) h
  = k (h ++ still_waiting).
Proof.
  unfold mbind, M_bind, sleep, print, emit, still_waiting.
  by rewrite <-!app_assoc.
Qed.

Context (states : nat → string).
Hypothesis observed : ∀ h,
  (image_status env region ami h).1 = Ret (PStr (states (polls h))).

Lemma image_status_observed h :
  ∃ response,
    image_status env region ami h
    = (Ret (PStr (states (polls h))),
       h ++ [Call (DescribeImages region (PList [ami])) response]).
Proof.
  destruct (image_status_history h) as [response Hh].
  exists response. rewrite <-Hh, <-observed. apply surjective_pairing.
Qed.

Lemma polls_after_query h response :
  polls (h ++ [Call (DescribeImages region (PList [ami])) response]
           ++ still_waiting)
  = S (polls h).
Proof. rewrite count_events_app. unfold count_events. simpl. lia. Qed.

(** While no query answers [available], every unit of fuel is spent on
    one query and one wait. *)
Lemma wait_available_pending fuel : ∀ h,
  (∀ j, j < fuel → states (polls h + j) ≠ "available") →
  ∃ evs,
    wait fuel ami h = (Diverge, h ++ evs) ∧
    polls evs = fuel ∧
    List.filter (λ e, negb (is_image_poll e)) evs
    = concat (replicate fuel still_waiting).
Proof.
  induction fuel as [|fuel IH]; intros h Hnot.
  - exists []. by rewrite app_nil_r.
  - destruct (image_status_observed h) as [response E].
    assert (states (polls h) ≠ "available") as Hnow.
    { rewrite <-(Nat.add_0_r (polls h)). apply Hnot. lia. }
    simpl. rewrite (bind_Ret _ _ _ _ _ E). simpl.
    apply String.eqb_neq in Hnow as ->. simpl.
    rewrite still_waiting_run, <-app_assoc.
    destruct (IH (h ++ [Call (DescribeImages region (PList [ami])) response]
                    ++ still_waiting)) as (evs & -> & Hpolls & Hfilter).
    { intros j Hj. rewrite polls_after_query.
      replace (S (polls h) + j) with (polls h + S j) by lia. apply Hnot. lia. }
    exists ([Call (DescribeImages region (PList [ami])) response]
              ++ still_waiting ++ evs).
    split; [by rewrite <-!app_assoc|]. split.
    + rewrite !count_events_app, Hpolls. done.
    + rewrite !List.filter_app, Hfilter. done.
Qed.

(** When query number [k] is the first to answer [available], the loop
    ends right after it. *)
Lemma wait_available_ready k : ∀ fuel h,
  k < fuel →
  states (polls h + k) = "available" →
  (∀ j, j < k → states (polls h + j) ≠ "available") →
  ∃ evs,
    wait fuel ami h = (Ret (), h ++ evs) ∧
    polls evs = S k ∧
    List.filter (λ e, negb (is_image_poll e)) evs
    = concat (replicate k still_waiting).
Proof.
  induction k as [|k IH]; intros [|fuel] h Hlt Hready Hnot; try lia.
  - destruct (image_status_observed h) as [response E].
    rewrite Nat.add_0_r in Hready.
    simpl. rewrite (bind_Ret _ _ _ _ _ E). simpl. rewrite Hready. simpl.
    by eexists [_].
  - destruct (image_status_observed h) as [response E].
    assert (states (polls h) ≠ "available") as Hnow.
    { rewrite <-(Nat.add_0_r (polls h)). apply Hnot. lia. }
    simpl. rewrite (bind_Ret _ _ _ _ _ E). simpl.
    apply String.eqb_neq in Hnow as ->. simpl.
    rewrite still_waiting_run, <-app_assoc.
    destruct (IH fuel (h ++ [Call (DescribeImages region (PList [ami])) response]
                         ++ still_waiting))
      as (evs & -> & Hpolls & Hfilter); [lia|..].
    { rewrite polls_after_query.
      by replace (S (polls h) + k) with (polls h + S k) by lia. }
    { intros j Hj. rewrite polls_after_query.
      replace (S (polls h) + j) with (polls h + S j) by lia. apply Hnot. lia. }
    exists ([Call (DescribeImages region (PList [ami])) response]
              ++ still_waiting ++ evs).
    split; [by rewrite <-!app_assoc|]. split.
    + rewrite !count_events_app, Hpolls. done.
    + rewrite !List.filter_app, Hfilter. done.
Qed.

End Polling.

(** C5: the loop queries the image state, waits 5 + 5 seconds after a
    query that does not answer [available], and ends right after the first
    query that does.  There is no bound: when [available] never comes up in
    the states the provider reports (a [failed] state included) the loop
    uses up any fuel, and when query number [k] is the first to report it
    the loop ends after [k + 1] queries and [k] waits, and not before. *)
Theorem C5_polling_ends_only_on_available env region ami
    (states : nat → string) :
  (∀ h, (image_status env region ami h).1
        = Ret (PStr (states (count_events is_image_poll h)))) →
  ∀ h,
    ((∀ j, states (count_events is_image_poll h + j) ≠ "available") →
     ∀ fuel, (wait_available env region fuel ami h).1 = Diverge) ∧
    (∀ k,
       states (count_events is_image_poll h + k) = "available" →
       (∀ j, j < k → states (count_events is_image_poll h + j) ≠ "available") →
       ∀ fuel,
         (fuel ≤ k → (wait_available env region fuel ami h).1 = Diverge) ∧
         (k < fuel →
          ∃ evs,
            wait_available env region fuel ami h = (Ret (), h ++ evs) ∧
            count_events is_image_poll evs = S k ∧
            List.filter (λ e, negb (is_image_poll e)) evs
            = concat (replicate k still_waiting))).
Proof.
  intros Hobs h. split.
  - intros Hnever fuel.
    destruct (wait_available_pending env region ami states Hobs fuel h)
      as (evs & -> & _); [|done].
    intros j _. apply Hnever.
  - intros k Hready Hnot fuel. split.
    + intros Hle.
      destruct (wait_available_pending env region ami states Hobs fuel h)
        as (evs & -> & _); [|done].
      intros j Hj. apply Hnot. lia.
    + intros Hlt.
      by apply (wait_available_ready env region ami states Hobs k).
Qed.

Lemma C5_witness :
  (∀ fuel,
     (wait_available failed_env "r1" fuel (PStr "ami-0new") []).1 = Diverge) ∧
  (∃ evs,
     wait_available example_env "r1" 3 (PStr "ami-0new") [] = (Ret (), [] ++ evs) ∧
     count_events is_image_poll evs = 3 ∧
     List.filter (λ e, negb (is_image_poll e)) evs
     = concat (replicate 2 still_waiting)).
Proof.
  split.
  - destruct (C5_polling_ends_only_on_available failed_env "r1"
                (PStr "ami-0new") always_failed (λ h, eq_refl) [])
      as [Hnever _].
    apply Hnever. intros j. discriminate.
  - destruct (C5_polling_ends_only_on_available example_env "r1"
                (PStr "ami-0new") ready_after_two (λ h, eq_refl) [])
      as [_ Hready].
    apply (Hready 2).
    + reflexivity.
    + intros j Hj. destruct j as [|[|j]]; [discriminate|discriminate|lia].
    + lia.
Defined.

(** * Where the sanitiser returns *)

Lemma project_returns keys : ∀ acc (d : dict),
  (∀ k, k ∈ keys → is_Some (d !! k)) →
  ∃ f, project keys acc d = (Ret f, d).
Proof.
  induction keys as [|k keys IH]; intros acc d Hall; [by eexists|].
  destruct (Hall k) as [v Hv]; [by apply elem_of_cons; left|].
  destruct (IH (<[k:=v]> acc) d) as [f Hf].
  { intros j Hj. apply Hall, elem_of_cons. by right. }
  exists f. simpl. by rewrite (bind_Ret _ _ _ _ _ (load_Some k d v Hv)).
Qed.

Lemma carry_tag_run t k (d : dict) acc :
  getitem_key t "Key" = Ok (PStr k) →
  d !! "Tags" = Some (PList acc) →
  carry_tag t d
  = (Ret (), if String.prefix "aws:" k then d
             else <["Tags":=PList (acc ++ [t])]> d).
Proof.
  intros Hk Hacc. unfold carry_tag, tag_is_carried. rewrite Hk.
  cbn [mbind result_bind py_startswith mret result_ret lift].
  destruct (String.prefix "aws:" k);
    unfold mbind, M_bind, mret, M_ret, append_to; simpl; [done|].
  by rewrite Hacc.
Qed.

Lemma carry_loop_returns tags : ∀ (d : dict) acc,
  Forall (λ t, ∃ k, getitem_key t "Key" = Ok (PStr k)) tags →
  d !! "Tags" = Some (PList acc) →
  ∃ acc', for_each tags carry_tag d = (Ret (), <["Tags":=PList acc']> d).
Proof.
  induction tags as [|t tags IH]; intros d acc Hwf Hacc.
  - exists acc. simpl. by rewrite insert_id.
  - apply Forall_cons in Hwf as [[k Hk] Hwf]. simpl.
    rewrite (bind_Ret _ _ _ _ _ (carry_tag_run t k d acc Hk Hacc)).
    destruct (String.prefix "aws:" k).
    + by apply (IH d acc).
    + destruct (IH (<["Tags":=PList (acc ++ [t])]> d) (acc ++ [t]) Hwf)
        as [acc' Hrun]; [by rewrite lookup_insert_eq|].
      exists acc'. by rewrite insert_insert_eq in Hrun.
Qed.

(** On a descriptor with well-formed group records, profile and tags the
    sanitiser gets to its projection, with the three entries rewritten. *)
Lemma sanitise_reaches_projection sourceinstance (d : dict) records :
  d !! "SecurityGroups" = Some (PList records) →
  Forall (λ r, ∃ id, getitem_key r "GroupId" = Ok id) records →
  (∀ profile, d !! "IamInstanceProfile" = Some profile →
     ∃ arn, getitem_key profile "Arn" = Ok arn) →
  (∀ tv, d !! "Tags" = Some tv →
     ∃ tags, tv = PList tags ∧
       Forall (λ t, ∃ k, getitem_key t "Key" = Ok (PStr k)) tags) →
  ∃ ids arn tags,
    sanitise_instance_config sourceinstance d
    = project filter_keys ∅
        (<["Tags":=PList tags]>
           (<["IamInstanceProfile":=arn]>
              (<["SecurityGroups":=PList ids]> d))).
Proof.
  intros Hsg Hrecords Hprofile Htags.
  assert (∃ ids, map_result (λ sg, getitem_key sg "GroupId") records = Ok ids)
    as [ids Hids].
  { clear -Hrecords. induction Hrecords as [|r l [id Hid] _ [ids IH]].
    - by exists [].
    - exists (id :: ids). simpl. by rewrite Hid, IH. }
  unfold sanitise_instance_config.
  rewrite (bind_Ret _ _ _ _ _ (load_Some _ _ _ Hsg)).
  rewrite (bind_Ret _ _ d records d) by done.
  rewrite (bind_Ret _ _ d ids d) by (by rewrite Hids).
  rewrite (bind_Ret _ _ d () (<["SecurityGroups":=PList ids]> d)) by done.
  set (d1 := <["SecurityGroups":=PList ids]> d).
  erewrite (bind_Ret _ _ d1) by done.
  assert (∃ arn, (if bool_decide (is_Some (d1 !! "IamInstanceProfile"))
                  then profile ← load "IamInstanceProfile";
                       arn ← lift (getitem_key profile "Arn");
                       store "IamInstanceProfile" arn
                  else store "IamInstanceProfile" (PStr "")) d1
                 = (Ret (), <["IamInstanceProfile":=arn]> d1)) as [arn Harn].
  { assert (d1 !! "IamInstanceProfile" = d !! "IamInstanceProfile") as Hd1
      by (by apply lookup_insert_ne).
    destruct (d !! "IamInstanceProfile") as [profile|] eqn:Hp.
    - destruct (Hprofile profile eq_refl) as [arn Ha]. exists arn.
      rewrite bool_decide_eq_true_2 by (rewrite Hd1; eauto).
      rewrite (bind_Ret _ _ _ _ _ (load_Some _ _ _ Hd1)).
      by rewrite (bind_Ret _ _ d1 arn d1) by (by rewrite Ha).
    - exists (PStr "").
      by rewrite bool_decide_eq_false_2 by (rewrite Hd1; by intros [? ?]). }
  rewrite (bind_Ret _ _ _ _ _ Harn).
  set (d2 := <["IamInstanceProfile":=arn]> d1).
  erewrite (bind_Ret _ _ d2) by done.
  assert (d2 !! "Tags" = d !! "Tags") as Hd2.
  { unfold d2, d1. by rewrite !lookup_insert_ne. }
  assert (∃ tags, (if bool_decide (is_Some (d2 !! "Tags"))
                   then source_tags ← load "Tags";
                        store "Tags" (PList (meta_tags sourceinstance));;
                        tags ← lift (py_iter source_tags);
                        for_each tags carry_tag
                   else store "Tags" (PList (meta_tags sourceinstance))) d2
                  = (Ret (), <["Tags":=PList tags]> d2)) as [tags Hrun].
  { destruct (d !! "Tags") as [tv|] eqn:Htv.
    - destruct (Htags tv eq_refl) as (source_tags & -> & Hwf).
      rewrite bool_decide_eq_true_2 by (rewrite Hd2; eauto).
      rewrite (bind_Ret _ _ _ _ _ (load_Some _ _ _ Hd2)).
      rewrite (bind_Ret _ _ d2 ()
                 (<["Tags":=PList (meta_tags sourceinstance)]> d2)) by done.
      erewrite (bind_Ret _ _ _ source_tags) by done.
      destruct (carry_loop_returns source_tags
                  (<["Tags":=PList (meta_tags sourceinstance)]> d2)
                  (meta_tags sourceinstance) Hwf)
        as [tags Hloop]; [by rewrite lookup_insert_eq|].
      exists tags. by rewrite Hloop, insert_insert_eq.
    - exists (meta_tags sourceinstance).
      by rewrite bool_decide_eq_false_2 by (rewrite Hd2; by intros [? ?]). }
  rewrite (bind_Ret _ _ _ _ _ Hrun). by exists ids, arn, tags.
Qed.

(** The sanitiser returns on every descriptor that has the seven keys
    without default, group records with a [GroupId], a profile record with
    an [Arn] when there is one, and tags with a string [Key] when there are
    tags. *)
Lemma sanitise_returns sourceinstance (d : dict) records :
  (∀ k, k ∈ required_keys → is_Some (d !! k)) →
  d !! "SecurityGroups" = Some (PList records) →
  Forall (λ r, ∃ id, getitem_key r "GroupId" = Ok id) records →
  (∀ profile, d !! "IamInstanceProfile" = Some profile →
     ∃ arn, getitem_key profile "Arn" = Ok arn) →
  (∀ tv, d !! "Tags" = Some tv →
     ∃ tags, tv = PList tags ∧
       Forall (λ t, ∃ k, getitem_key t "Key" = Ok (PStr k)) tags) →
  ∃ f d', sanitise_instance_config sourceinstance d = (Ret f, d').
Proof.
  intros Hreq Hsg Hrecords Hprofile Htags.
  destruct (sanitise_reaches_projection sourceinstance d records
              Hsg Hrecords Hprofile Htags) as (ids & arn & tags & ->).
  destruct (project_returns filter_keys ∅
              (<["Tags":=PList tags]>
                 (<["IamInstanceProfile":=arn]>
                    (<["SecurityGroups":=PList ids]> d))))
    as [f Hf]; [|by eauto].
  intros k Hk. apply filter_keys_elem in Hk.
  destruct (decide (k = "Tags")) as [->|HT]; [by rewrite lookup_insert_eq|].
  rewrite lookup_insert_ne by done.
  destruct (decide (k = "IamInstanceProfile")) as [->|HI];
    [by rewrite lookup_insert_eq|].
  rewrite lookup_insert_ne by done.
  destruct (decide (k = "SecurityGroups")) as [->|HS];
    [by rewrite lookup_insert_eq|].
  rewrite lookup_insert_ne by done.
  apply Hreq, required_keys_elem. tauto.
Qed.

(** * The command line *)

(** Fewer than two arguments after the script name: a usage error before
    any call to the provider. *)
Lemma script_usage_error env argv fuel h :
  length argv < 3 →
  ∃ msg, script env argv fuel h = (Raise (SyntaxError msg), h).
Proof.
  intros Hlen. unfold script.
  apply Nat.ltb_lt in Hlen as ->. by eexists.
Qed.

(** The fourth example of the header of the script, on the example
    provider: [main] runs with the image override. *)
Lemma scenario_command_line :
  script example_env
    ["cloneEC2.py"; "r1"; "i-srcA"; "ImageId=ami-X"; "SubnetId=subnet-Y"] 0 []
  = main example_env "r1" "i-srcA" example_overrides 0 [].
Proof. reflexivity. Qed.

(** An argument without [=], or with two, is rejected by [dict]. *)
Lemma scenario_malformed_override :
  script example_env ["cloneEC2.py"; "r1"; "i-srcA"; "ImageId"] 0 []
  = (Raise ValueError, []) ∧
  script example_env ["cloneEC2.py"; "r1"; "i-srcA"; "a=b=c"] 0 []
  = (Raise ValueError, []).
Proof. split; reflexivity. Qed.

(** * Further properties of the sanitiser *)

Lemma map_result_Err {A B} (f : A → result B) good bad rest e :
  Forall (λ x, ∃ y, f x = Ok y) good →
  f bad = Err e →
  map_result f (good ++ bad :: rest) = Err e.
Proof.
  intros Hgood Hbad. induction Hgood as [|x l [y Hy] _ IH]; simpl.
  - by rewrite Hbad.
  - by rewrite Hy, IH.
Qed.

Lemma project_first_missing before k after : ∀ acc (d : dict),
  (∀ j, j ∈ before → is_Some (d !! j)) →
  d !! k = None →
  project (before ++ k :: after) acc d = (Raise (KeyError (PStr k)), d).
Proof.
  induction before as [|j before IH]; intros acc d Hbefore Hk; simpl.
  - by rewrite (bind_Raise _ _ _ _ _ (load_None k d Hk)).
  - destruct (Hbefore j) as [v Hv]; [by apply elem_of_cons; left|].
    rewrite (bind_Ret _ _ _ _ _ (load_Some j d v Hv)).
    apply IH; [|done]. intros i Hi. apply Hbefore, elem_of_cons. by right.
Qed.

Lemma sanitise_projects_onto_filter_keys_dom sourceinstance (d : dict) f d' :
  sanitise_instance_config sourceinstance d = (Ret f, d') →
  ∀ k, is_Some (f !! k) ↔ k ∈ filter_keys.
Proof.
  intros (groups & sgs & ids & arn & tags & _ & _ & _ & _ & _ & -> & Hall & Hf)
    %sanitise_Ret_inv k.
  rewrite Hf. case_decide as Hk.
  - split; [done|]. intros _. by apply Hall.
  - split; [by intros [? ?]|done].
Qed.

(** X1: the dictionary the sanitiser returns has exactly the nine keys of
    [filter_keys], whatever else the descriptor holds, and the six of them
    that are not rewritten have the value of the descriptor. *)
Theorem sanitise_projects_onto_filter_keys sourceinstance (d : dict) f d' :
  sanitise_instance_config sourceinstance d = (Ret f, d') →
  dom f = list_to_set filter_keys ∧
  (∀ k, k ∈ filter_keys → k ∉ rewritten_keys → f !! k = d !! k).
Proof.
  intros H. split.
  - apply sanitise_Ret_inv in H
      as (groups & sgs & ids & arn & tags & _ & _ & _ & _ & _ & -> & Hall & Hf).
    apply set_eq. intros k.
    rewrite elem_of_dom, elem_of_list_to_set, Hf.
    case_decide as Hk.
    + split; [done|]. intros _. by apply Hall.
    + split; [by intros [? ?]|done].
  - apply sanitise_fields in H
      as (groups & sgs & ids & arn & tags & _ & _ & _ & _ & _ & _ & _ & _
          & Hkeep & _).
    intros k Hin Hout. by apply Hkeep.
Qed.

Lemma sanitise_projects_onto_filter_keys_witness :
  dom example_sanitised = list_to_set filter_keys ∧
  example_sanitised !! "LaunchTime" = None ∧
  example_sanitised !! "VpcId" = example_descriptor !! "VpcId".
Proof.
  destruct (sanitise_projects_onto_filter_keys "i-srcA" example_descriptor
              example_sanitised example_rewritten) as [Hdom Hkeep].
  - reflexivity.
  - split; [exact Hdom|]. split; [reflexivity|].
    apply Hkeep.
    + apply filter_keys_elem. do 4 right. left. reflexivity.
    + rewrite rewritten_keys_elem. intros [H|[H|H]]; discriminate H.
Defined.

(** X2: the sanitiser returns on every descriptor that has the seven keys
    without default, a list of group records that each have a [GroupId], a
    profile record with an [Arn] when there is a profile, and a list of tags
    that each have a string [Key] when there are tags. *)
Theorem sanitise_returns_on_well_formed sourceinstance (d : dict) records :
  (∀ k, k ∈ required_keys → is_Some (d !! k)) →
  d !! "SecurityGroups" = Some (PList records) →
  Forall (λ r, ∃ id, getitem_key r "GroupId" = Ok id) records →
  (∀ profile, d !! "IamInstanceProfile" = Some profile →
     ∃ arn, getitem_key profile "Arn" = Ok arn) →
  (∀ tv, d !! "Tags" = Some tv →
     ∃ tags, tv = PList tags ∧
       Forall (λ t, ∃ k, getitem_key t "Key" = Ok (PStr k)) tags) →
  ∃ f d', sanitise_instance_config sourceinstance d = (Ret f, d').
Proof. apply sanitise_returns. Qed.

Lemma sanitise_returns_on_well_formed_witness :
  ∃ f d', sanitise_instance_config "i-srcA" bare_descriptor = (Ret f, d').
Proof.
  apply (sanitise_returns_on_well_formed "i-srcA" bare_descriptor
           [make_group "sg-1" "web"; make_group "sg-2" "db"]).
  - intros k Hk. apply required_keys_elem in Hk.
    destruct Hk as [->|[->|[->|[->|[->|[->| ->]]]]]]; eexists; reflexivity.
  - reflexivity.
  - repeat constructor; eexists; reflexivity.
  - intros profile H. discriminate H.
  - intros tv H. discriminate H.
Defined.

(** X3: no tag of the list the sanitiser returns has a key that starts
    with [aws:]. *)
Theorem sanitised_tags_are_unreserved sourceinstance (d : dict) f d' :
  sanitise_instance_config sourceinstance d = (Ret f, d') →
  ∃ tags, f !! "Tags" = Some (PList tags) ∧
          Forall (λ t, reserved_key t = false) tags.
Proof.
  intros (groups & sgs & ids & arn & tags & _ & _ & _ & _ & Htags & _ & _
          & Hf & _)%sanitise_fields.
  exists tags. split; [done|].
  assert (Forall (λ t, reserved_key t = false) (meta_tags sourceinstance))
    as Hmeta by (by repeat constructor).
  destruct (d !! "Tags") as [tv|]; [|by subst tags].
  destruct Htags as (source_tags & _ & _ & ->).
  apply Forall_app. split; [done|].
  apply Forall_forall. intros t Ht.
  apply list_elem_of_In, List.filter_In in Ht as [_ Ht].
  by apply negb_true_iff.
Qed.

Lemma sanitised_tags_are_unreserved_witness :
  ∃ tags, example_sanitised !! "Tags" = Some (PList tags) ∧
          Forall (λ t, reserved_key t = false) tags.
Proof.
  apply (sanitised_tags_are_unreserved "i-srcA" example_descriptor
           example_sanitised example_rewritten).
  reflexivity.
Defined.

(** X4: when a group record has no [GroupId] or is no dictionary, the
    sanitiser raises the exception of that subscript, [KeyError] or
    [TypeError], and has not touched the descriptor: the loop over the
    groups fills a list of its own before line 103 assigns. *)
Theorem sanitise_bad_group_raises_untouched sourceinstance (d : dict)
    good bad rest e :
  d !! "SecurityGroups" = Some (PList (good ++ bad :: rest)) →
  Forall (λ r, ∃ id, getitem_key r "GroupId" = Ok id) good →
  getitem_key bad "GroupId" = Err e →
  sanitise_instance_config sourceinstance d = (Raise e, d) ∧
  (e = TypeError ∨ e = KeyError (PStr "GroupId")).
Proof.
  intros Hsg Hgood Hbad. split.
  - unfold sanitise_instance_config.
    rewrite (bind_Ret _ _ _ _ _ (load_Some _ _ _ Hsg)).
    rewrite (bind_Ret _ _ d (good ++ bad :: rest) d) by done.
    apply bind_Raise.
    by rewrite (map_result_Err _ good bad rest e Hgood Hbad).
  - unfold getitem_key in Hbad.
    destruct bad as [| | | | |g|]; try (injection Hbad as <-; by left).
    destruct (g !! "GroupId"); [done|]. injection Hbad as <-. by right.
Qed.

Lemma sanitise_bad_group_raises_untouched_witness :
  let d := <["SecurityGroups" :=
               PList [make_group "sg-1" "web"; PStr "sg-2"]]> example_descriptor in
  sanitise_instance_config "i-srcA" d = (Raise TypeError, d).
Proof.
  apply (sanitise_bad_group_raises_untouched "i-srcA" _
           [make_group "sg-1" "web"] (PStr "sg-2") [] TypeError).
  - reflexivity.
  - repeat constructor. eexists. reflexivity.
  - reflexivity.
Defined.

(** X5: on a descriptor with well-formed groups, profile and tags, the
    projection raises [KeyError] for the first key of [filter_keys] that
    the descriptor lacks; by then the three entries are rewritten in the
    descriptor. *)
Theorem sanitise_first_missing_key sourceinstance (d : dict) records
    before k after :
  d !! "SecurityGroups" = Some (PList records) →
  Forall (λ r, ∃ id, getitem_key r "GroupId" = Ok id) records →
  (∀ profile, d !! "IamInstanceProfile" = Some profile →
     ∃ arn, getitem_key profile "Arn" = Ok arn) →
  (∀ tv, d !! "Tags" = Some tv →
     ∃ tags, tv = PList tags ∧
       Forall (λ t, ∃ k, getitem_key t "Key" = Ok (PStr k)) tags) →
  filter_keys = before ++ k :: after →
  (∀ j, j ∈ before → is_Some (d !! j)) →
  d !! k = None →
  k ∉ rewritten_keys →
  ∃ ids arn tags,
    sanitise_instance_config sourceinstance d
    = (Raise (KeyError (PStr k)),
       <["Tags":=PList tags]>
         (<["IamInstanceProfile":=arn]>
            (<["SecurityGroups":=PList ids]> d))).
Proof.
  intros Hsg Hrecords Hprofile Htags Hkeys Hbefore Hk Hout.
  destruct (sanitise_reaches_projection sourceinstance d records
              Hsg Hrecords Hprofile Htags) as (ids & arn & tags & ->).
  exists ids, arn, tags. rewrite Hkeys.
  rewrite rewritten_keys_elem in Hout.
  apply project_first_missing.
  - intros j Hj. destruct (Hbefore j Hj) as [v Hv].
    destruct (decide (j = "Tags")) as [->|HT]; [by rewrite lookup_insert_eq|].
    rewrite lookup_insert_ne by done.
    destruct (decide (j = "IamInstanceProfile")) as [->|HI];
      [by rewrite lookup_insert_eq|].
    rewrite lookup_insert_ne by done.
    destruct (decide (j = "SecurityGroups")) as [->|HS];
      [by rewrite lookup_insert_eq|].
    rewrite lookup_insert_ne by done. by eexists.
  - rewrite !lookup_insert_ne; [done|intros <-; tauto..].
Qed.

Lemma sanitise_first_missing_key_witness :
  ∃ ids arn tags,
    sanitise_instance_config "i-srcA" descriptor_without_subnet
    = (Raise (KeyError (PStr "SubnetId")),
       <["Tags":=PList tags]>
         (<["IamInstanceProfile":=arn]>
            (<["SecurityGroups":=PList ids]> descriptor_without_subnet))).
Proof.
  apply (sanitise_first_missing_key "i-srcA" descriptor_without_subnet
           [make_group "sg-1" "web"; make_group "sg-2" "db"]
           ["ImageId"; "InstanceType"; "KeyName"] "SubnetId"
           ["VpcId"; "SecurityGroups"; "IamInstanceProfile"; "EbsOptimized";
            "Tags"]).
  - reflexivity.
  - repeat constructor; eexists; reflexivity.
  - intros profile [= <-]. eexists. reflexivity.
  - intros tv [= <-]. eexists. split; [reflexivity|].
    repeat constructor; eexists; reflexivity.
  - reflexivity.
  - intros j Hj. rewrite !elem_of_cons, elem_of_nil in Hj.
    destruct Hj as [->|[->|[->|[]]]]; eexists; reflexivity.
  - reflexivity.
  - rewrite rewritten_keys_elem. intros [H|[H|H]]; discriminate H.
Defined.

(** X6: the sanitiser cannot be run again on the descriptor it has
    rewritten: the [SecurityGroups] entry now holds the ids, and the
    subscript [sg['GroupId']] on a string raises [TypeError]. *)
Theorem sanitise_twice_raises sourceinstance (d : dict) f d' record records id :
  sanitise_instance_config sourceinstance d = (Ret f, d') →
  d !! "SecurityGroups" = Some (PList (record :: records)) →
  getitem_key record "GroupId" = Ok (PStr id) →
  sanitise_instance_config sourceinstance d' = (Raise TypeError, d').
Proof.
  intros (groups & sgs & ids & arn & tags & Hsg & Hsgs & Hids & _ & _ & -> & _)
    %sanitise_Ret_inv Hd Hid.
  rewrite Hd in Hsg. injection Hsg as <-. injection Hsgs as <-.
  simpl in Hids. rewrite Hid in Hids. simpl in Hids.
  destruct (map_result _ records) as [ids'|] eqn:Hrest; [|done].
  injection Hids as <-.
  set (d' := <["Tags":=_]> _).
  assert (d' !! "SecurityGroups" = Some (PList (PStr id :: ids'))) as Hd'.
  { unfold d'. rewrite !lookup_insert_ne by done. by rewrite lookup_insert_eq. }
  unfold sanitise_instance_config.
  rewrite (bind_Ret _ _ _ _ _ (load_Some _ _ _ Hd')).
  rewrite (bind_Ret _ _ d' (PStr id :: ids') d') by done.
  by apply bind_Raise.
Qed.

Lemma sanitise_twice_raises_witness :
  sanitise_instance_config "i-srcA" example_rewritten
  = (Raise TypeError, example_rewritten).
Proof.
  apply (sanitise_twice_raises "i-srcA" example_descriptor example_sanitised
           example_rewritten (make_group "sg-1" "web")
           [make_group "sg-2" "db"] "sg-1").
  - reflexivity.
  - reflexivity.
  - reflexivity.
Defined.

(** * Further properties of the merge and of the launch *)

(** X7: the merged configuration has the keys of both dictionaries; with
    no keyword argument it is the source configuration; merging it again
    with the same keyword arguments changes nothing; and two merges in a
    row are one merge with the later keyword arguments laid over the
    earlier ones. *)
Theorem modify_instance_config_composes (source_config kwargs merged : dict) :
  modify_instance_config source_config kwargs = Ok merged →
  dom merged = dom kwargs ∪ dom source_config ∧
  modify_instance_config source_config ∅ = Ok source_config ∧
  modify_instance_config merged kwargs = Ok merged ∧
  (∀ kwargs' merged' : dict,
     modify_instance_config merged kwargs' = Ok merged' →
     modify_instance_config source_config (kwargs' ∪ kwargs) = Ok merged').
Proof.
  intros [Hkw ->]%modify_instance_config_Ok. split_and!.
  - apply dom_union_L.
  - unfold modify_instance_config.
    rewrite bool_decide_eq_false_2 by (rewrite lookup_empty; by intros [? ?]).
    by rewrite copy_by_insert, (left_id_L ∅ (∪)).
  - unfold modify_instance_config.
    rewrite bool_decide_eq_false_2 by (rewrite Hkw; by intros [? ?]).
    rewrite copy_by_insert, (assoc_L (∪)). by rewrite (idemp_L (∪)).
  - intros kwargs' merged' [Hkw' ->]%modify_instance_config_Ok.
    unfold modify_instance_config.
    rewrite bool_decide_eq_false_2.
    + by rewrite copy_by_insert, (assoc_L (∪)).
    + rewrite lookup_union, Hkw, Hkw'. by intros [? ?].
Qed.

Lemma modify_instance_config_composes_witness :
  modify_instance_config example_effective
    ((PStr <$> example_overrides) ∪ {[ "ImageId" := PStr "ami-X" ]})
  = Ok example_effective.
Proof.
  apply (modify_instance_config_composes example_sanitised
           ((PStr <$> example_overrides) ∪ {[ "ImageId" := PStr "ami-X" ]})
           example_effective).
  reflexivity.
Defined.







(** X10: a configuration made by merging overrides onto what the sanitiser
    returned always has the eight keys the launch reads: the launch never
    raises [KeyError], and its image is the effective one. *)
Theorem sanitised_then_merged_is_launchable sourceinstance
    (sysargv_config : gmap string string) (d : dict) f d' ami new_config :
  sanitise_instance_config sourceinstance d = (Ret f, d') →
  effective_config sysargv_config f ami = Ok new_config →
  (∀ k, k ∈ launch_keys → is_Some (new_config !! k)) ∧
  ∃ kwargs, run_instances_kwargs new_config = Ok kwargs ∧
            kwargs !! "ImageId" = new_config !! "ImageId".
Proof.
  intros Hs Hc.
  assert (∀ k, k ∈ launch_keys → is_Some (new_config !! k)) as Hall.
  { intros k Hk. rewrite (effective_config_lookup _ _ _ _ k Hc).
    destruct (sysargv_config !! k); [by eexists|].
    case_decide; [by eexists|].
    destruct (sanitise_projects_onto_filter_keys_dom sourceinstance d f d' Hs k)
      as [_ Hin]. apply Hin.
    apply filter_keys_elem. apply launch_keys_elem in Hk. tauto. }
  split; [done|].
  destruct (run_instances_kwargs new_config) as [kwargs|e] eqn:Hkw.
  - exists kwargs. split; [done|]. by apply run_instances_kwargs_image.
  - exfalso.
    unfold run_instances_kwargs, getitem_key, mbind, result_bind in Hkw.
    repeat match type of Hkw with
           | context [match new_config !! ?j with _ => _ end] =>
               destruct (Hall j) as [? Hj];
                 [apply launch_keys_elem; tauto|];
               rewrite Hj in Hkw; clear Hj; cbn iota beta in Hkw
           end.
    discriminate Hkw.
Qed.

Lemma sanitised_then_merged_is_launchable_witness :
  (∀ k, k ∈ launch_keys → is_Some (example_effective !! k)) ∧
  ∃ kwargs, run_instances_kwargs example_effective = Ok kwargs ∧
            kwargs !! "ImageId" = example_effective !! "ImageId".
Proof.
  apply (sanitised_then_merged_is_launchable "i-srcA" example_overrides
           example_descriptor example_sanitised example_rewritten
           (PStr "ami-X") example_effective).
  - reflexivity.
  - reflexivity.
Defined.

(** * Further properties of the pipeline *)

Lemma adds_none_of_emits p {A} (m : IO A) :
  emits (λ e, p e = false) m → adds_at_most p 0 m.
Proof.
  intros Hm h. destruct (Hm h) as (evs & Hh & Hevs). exists evs.
  split; [done|]. unfold count_events. clear Hh.
  induction Hevs as [|e l He _ IH]; [done|]. simpl. by rewrite He.
Qed.

Lemma adds_call p env rq : adds_at_most p 1 (call env rq).
Proof.
  intros h. unfold call, count_events.
  destruct (ec2 env h rq); eexists [_]; (split; [done|]); simpl;
    match goal with |- context [p ?e] => destruct (p e) end; simpl; lia.
Qed.

Lemma adds_bind p a b {A B} (m : IO A) (f : A → IO B) :
  adds_at_most p a m → (∀ x, adds_at_most p b (f x)) →
  adds_at_most p (a + b) (m ≫= f).
Proof.
  intros Hm Hf h. destruct (Hm h) as (evs & Hh & Hevs).
  unfold mbind, M_bind. destruct (m h) as [[x|e|] h1]; simpl in Hh; subst h1.
  - destruct (Hf x (h ++ evs)) as (evs' & -> & Hevs').
    exists (evs ++ evs'). split; [by rewrite app_assoc|].
    rewrite count_events_app. lia.
  - exists evs. split; [done|lia].
  - exists evs. split; [done|lia].
Qed.

Lemma adds_after p n {A B} (m : IO A) (f : A → IO B) :
  emits (λ e, p e = false) m → (∀ x, adds_at_most p n (f x)) →
  adds_at_most p n (m ≫= f).
Proof.
  intros Hm Hf. apply (adds_bind p 0 n); [by apply adds_none_of_emits|done].
Qed.

Lemma adds_before p n {A B} (m : IO A) (f : A → IO B) :
  adds_at_most p n m → (∀ x, emits (λ e, p e = false) (f x)) →
  adds_at_most p n (m ≫= f).
Proof.
  intros Hm Hf. rewrite <-(Nat.add_0_r n).
  apply adds_bind; [done|]. intros x. by apply adds_none_of_emits.
Qed.

Lemma returns_after_call p env rq :
  (∀ response, p (Call rq response) = true) → returns_after p (call env rq).
Proof.
  intros Hp h a h'. unfold call. destruct (ec2 env h rq); [|done].
  intros [= <- <-]. eexists [_]. split; [done|].
  unfold count_events. simpl. rewrite Hp. simpl. lia.
Qed.

Lemma returns_after_first p φ {A B} (m : IO A) (f : A → IO B) :
  returns_after p m → (∀ x, emits φ (f x)) → returns_after p (m ≫= f).
Proof.
  intros Hm Hf h b h' (a & h1 & Hrun & Hrest)%bind_Ret_inv.
  destruct (Hm h a h1 Hrun) as (evs & -> & Hevs).
  destruct (Hf a (h ++ evs)) as (evs' & Hh & _).
  rewrite Hrest in Hh. simpl in Hh. subst h'.
  exists (evs ++ evs'). split; [by rewrite app_assoc|].
  rewrite count_events_app. lia.
Qed.

Lemma returns_after_second p φ {A B} (m : IO A) (f : A → IO B) :
  emits φ m → (∀ x, returns_after p (f x)) → returns_after p (m ≫= f).
Proof.
  intros Hm Hf h b h' (a & h1 & Hrun & Hrest)%bind_Ret_inv.
  destruct (Hm h) as (evs & Hh & _).
  rewrite Hrun in Hh. simpl in Hh. subst h1.
  destruct (Hf a (h ++ evs) b h' Hrest) as (evs' & -> & Hevs').
  exists (evs ++ evs'). split; [by rewrite app_assoc|].
  rewrite count_events_app. lia.
Qed.

Section Counting.
Context (env : environment) (region sourceinstance : string).
Context (sysargv_config : gmap string string).

(** The header of [main] only prints, sleeps, draws letters and makes
    calls about images. *)
Lemma resolve_image_emits φ fuel :
  (∀ v, φ (Print v)) → (∀ n, φ (Sleep n)) → (∀ c, φ (Choice c)) →
  (∀ r i n response, φ (Call (CreateImage r i n) response)) →
  (∀ r i response, φ (Call (DescribeImages r i) response)) →
  emits φ (resolve_image env region sourceinstance sysargv_config fuel).
Proof.
  intros Hprint Hsleep Hchoice Hcreate Hpoll.
  unfold resolve_image, create_image.
  repeat first
    [ apply wait_available_emits; [intros ?|..]; solve [auto]
    | progress unfold image_status, print, sleep
    | emits_step ltac:(solve [auto]) ].
Qed.

Lemma get_instance_config_emits φ instanceid :
  (∀ r i response, φ (Call (DescribeInstances r i) response)) →
  emits φ (get_instance_config env region instanceid).
Proof.
  intros Hcall. unfold get_instance_config.
  repeat emits_step ltac:(solve [auto]).
Qed.

Lemma run_instance_emits φ config :
  (∀ r kwargs response, φ (Call (RunInstances r kwargs) response)) →
  emits φ (run_instance env region config).
Proof.
  intros Hcall. unfold run_instance.
  repeat emits_step ltac:(solve [auto]).
Qed.

Lemma launch_clone_emits_any φ ami :
  (∀ v, φ (Print v)) →
  (∀ r i response, φ (Call (DescribeInstances r i) response)) →
  (∀ r kwargs response, φ (Call (RunInstances r kwargs) response)) →
  emits φ (launch_clone env region sourceinstance sysargv_config ami).
Proof.
  intros Hprint Hfetch Hlaunch. unfold launch_clone, sanitise_fetched.
  repeat first
    [ apply get_instance_config_emits; solve [auto]
    | apply run_instance_emits; solve [auto]
    | progress unfold print
    | emits_step ltac:(solve [auto]) ].
Qed.

Lemma launch_clone_adds_one_launch ami :
  adds_at_most is_launch 1
    (launch_clone env region sourceinstance sysargv_config ami).
Proof.
  unfold launch_clone.
  apply adds_after; [unfold print; by apply emits_emit|intros _].
  apply adds_after; [by apply get_instance_config_emits|intros source_config].
  apply adds_after; [unfold print; by apply emits_emit|intros _].
  apply adds_after;
    [unfold sanitise_fetched; destruct source_config;
       first [apply emits_run_on|apply emits_raise]|intros sanitised].
  apply adds_after; [unfold print; by apply emits_emit|intros _].
  apply adds_after; [unfold print; by apply emits_emit|intros _].
  apply adds_after; [apply emits_lift|intros new_config].
  apply adds_after; [unfold print; by apply emits_emit|intros _].
  apply adds_after; [unfold print; by apply emits_emit|intros _].
  apply adds_before.
  - unfold run_instance. apply adds_after; [apply emits_lift|intros kwargs].
    apply adds_before; [apply adds_call|].
    intros response. repeat emits_step ltac:(done).
  - intros instanceid. unfold print. repeat emits_step ltac:(done).
Qed.

Lemma launch_clone_adds_one_fetch ami :
  adds_at_most is_describe_instances 1
    (launch_clone env region sourceinstance sysargv_config ami).
Proof.
  unfold launch_clone.
  apply adds_after; [unfold print; by apply emits_emit|intros _].
  apply adds_before.
  - unfold get_instance_config. apply adds_before; [apply adds_call|].
    intros response. repeat emits_step ltac:(done).
  - intros source_config. unfold sanitise_fetched.
    repeat first
      [ apply run_instance_emits; done
      | progress unfold print
      | emits_step ltac:(done) ].
Qed.

Lemma launch_clone_returns_after_launch ami :
  returns_after is_launch
    (launch_clone env region sourceinstance sysargv_config ami).
Proof.
  unfold launch_clone.
  do 2 (eapply (returns_after_second _ (λ _, True));
    [unfold print; by apply emits_emit|intros _];
    eapply (returns_after_second _ (λ _, True));
    [first [by apply get_instance_config_emits
           |unfold sanitise_fetched;
            match goal with
            | |- emits _ (match ?x with _ => _ end) => destruct x
            end; first [apply emits_run_on|apply emits_raise]]
    |intros ?]).
  eapply (returns_after_second _ (λ _, True));
    [unfold print; by apply emits_emit|intros _].
  eapply (returns_after_second _ (λ _, True));
    [unfold print; by apply emits_emit|intros _].
  eapply (returns_after_second _ (λ _, True)); [apply emits_lift|intros new_config].
  eapply (returns_after_second _ (λ _, True));
    [unfold print; by apply emits_emit|intros _].
  eapply (returns_after_second _ (λ _, True));
    [unfold print; by apply emits_emit|intros _].
  eapply (returns_after_first _ (λ _, True)).
  - unfold run_instance.
    eapply (returns_after_second _ (λ _, True)); [apply emits_lift|intros kwargs].
    eapply (returns_after_first _ (λ _, True));
      [by apply returns_after_call|].
    intros response. repeat emits_step ltac:(done).
  - intros instanceid. unfold print. repeat emits_step ltac:(done).
Qed.

Lemma launch_clone_returns_after_fetch ami :
  returns_after is_describe_instances
    (launch_clone env region sourceinstance sysargv_config ami).
Proof.
  unfold launch_clone.
  eapply (returns_after_second _ (λ _, True));
    [unfold print; by apply emits_emit|intros _].
  eapply (returns_after_first _ (λ _, True)).
  - unfold get_instance_config.
    eapply (returns_after_first _ (λ _, True));
      [by apply returns_after_call|].
    intros response. repeat emits_step ltac:(done).
  - intros source_config. unfold sanitise_fetched.
    repeat first
      [ apply run_instance_emits; done
      | progress unfold print
      | emits_step ltac:(done) ].
Qed.

End Counting.

(** X11: a run of [main] fetches the descriptor at most once and launches
    at most once, whatever the provider answers and however long the image
    takes; a run that returns has done both exactly once. *)
Theorem main_launches_at_most_once env region sourceinstance
    (sysargv_config : gmap string string) fuel h :
  ∃ evs,
    (main env region sourceinstance sysargv_config fuel h).2 = h ++ evs ∧
    count_events is_launch evs ≤ 1 ∧
    count_events is_describe_instances evs ≤ 1 ∧
    ((main env region sourceinstance sysargv_config fuel h).1 = Ret () →
     count_events is_launch evs = 1 ∧
     count_events is_describe_instances evs = 1).
Proof.
  assert (∀ φ : event → Prop, (∀ e, is_launch e = false → is_describe_instances e = false → φ e) →
            emits φ (resolve_image env region sourceinstance sysargv_config fuel))
    as Hresolve.
  { intros φ Hφ. apply resolve_image_emits; intros; by apply Hφ. }
  destruct (adds_after is_launch 1 _ _ (Hresolve _ (λ e Hl _, Hl))
              (launch_clone_adds_one_launch env region sourceinstance
                 sysargv_config) h) as (evs & Hh & Hlaunch).
  destruct (adds_after is_describe_instances 1 _ _ (Hresolve _ (λ e _ Hd, Hd))
              (launch_clone_adds_one_fetch env region sourceinstance
                 sysargv_config) h) as (evs' & Hh' & Hfetch).
  change ((main env region sourceinstance sysargv_config fuel h).2 = h ++ evs)
    in Hh.
  change ((main env region sourceinstance sysargv_config fuel h).2 = h ++ evs')
    in Hh'.
  assert (evs' = evs) as -> by (apply (app_inv_head h); congruence).
  exists evs. split; [done|]. split; [done|]. split; [done|].
  intros Hret.
  destruct (main env region sourceinstance sysargv_config fuel h)
    as [o h'] eqn:E. simpl in Hret, Hh. subst o h'.
  destruct (returns_after_second is_launch (λ _, True) _ _
              (Hresolve _ (λ _ _ _, I))
              (launch_clone_returns_after_launch env region sourceinstance
                 sysargv_config) h () _ E) as (evs1 & H1 & Hone).
  destruct (returns_after_second is_describe_instances (λ _, True) _ _
              (Hresolve _ (λ _ _ _, I))
              (launch_clone_returns_after_fetch env region sourceinstance
                 sysargv_config) h () _ E) as (evs2 & H2 & Htwo).
  apply app_inv_head in H1, H2. subst evs1 evs2. lia.
Qed.

Lemma main_launches_at_most_once_witness :
  ∃ evs,
    (main example_env "r1" "i-srcA" ∅ 3 []).2 = [] ++ evs ∧
    count_events is_launch evs = 1 ∧
    count_events is_describe_instances evs = 1.
Proof.
  destruct (main_launches_at_most_once example_env "r1" "i-srcA" ∅ 3 [])
    as (evs & Hh & _ & _ & Hret).
  exists evs. split; [exact Hh|]. apply Hret. reflexivity.
Defined.

(** * Further properties of the calls to the provider *)

Section Calls.
Context (env : environment) (region : string).







End Calls.








(** * The command line *)

Lemma split_on_nonempty sep s : split_on sep s ≠ [].
Proof.
  destruct s as [|c s]; simpl; [done|].
  destruct (Ascii.eqb c sep); [done|]. by destruct (split_on sep s).
Qed.

Lemma split_on_no_separator sep s :
  sep ∉ String.list_ascii_of_string s → split_on sep s = [s].
Proof.
  induction s as [|c s IH]; simpl; [done|].
  intros [Hne Hnot]%not_elem_of_cons.
  destruct (Ascii.eqb_spec c sep) as [->|_]; [done|]. by rewrite IH.
Qed.

Lemma split_on_key_value sep k v :
  sep ∉ String.list_ascii_of_string k →
  sep ∉ String.list_ascii_of_string v →
  split_on sep (k +:+ String sep v) = [k; v].
Proof.
  intros Hk Hv. induction k as [|c k IH]; simpl.
  - rewrite Ascii.eqb_refl. by rewrite split_on_no_separator.
  - simpl in Hk. apply not_elem_of_cons in Hk as [Hne Hk].
    destruct (Ascii.eqb_spec c sep) as [->|_]; [done|]. by rewrite IH.
Qed.

(** Splitting a string at a separator and joining the pieces with
    the separator gives the string back, and there is one piece more than
    there are separators in the string. *)
Theorem split_on_round_trip sep s :
  String.concat (String sep EmptyString) (split_on sep s) = s ∧
  length (split_on sep s)
  = S (length (List.filter (Ascii.eqb sep) (String.list_ascii_of_string s))).
Proof.
  induction s as [|c s [IHs IHl]]; [done|]. simpl.
  rewrite (Ascii.eqb_sym sep c).
  pose proof (split_on_nonempty sep s) as Hne.
  destruct (Ascii.eqb_spec c sep) as [->|Hc].
  - simpl. rewrite IHl. split; [|done].
    destruct (split_on sep s) as [|w ws]; [done|].
    simpl in *. by rewrite IHs.
  - destruct (split_on sep s) as [|w ws]; [done|]. split; [|done].
    simpl in *. destruct ws; simpl in *; by rewrite <-IHs.
Qed.

Lemma dict_of_pairs_pairs (kvs : list (string * string)) : ∀ acc,
  dict_of_pairs ((λ kv, [kv.1; kv.2]) <$> kvs) acc
  = Ok (list_to_map (reverse kvs) ∪ acc).
Proof.
  induction kvs as [|[k v] kvs IH]; intros acc; simpl.
  - by rewrite (left_id_L ∅ (∪)).
  - rewrite IH, reverse_cons, list_to_map_app. simpl.
    rewrite <-(assoc_L (∪)). do 2 f_equal.
    rewrite insert_empty. by rewrite <-insert_union_singleton_l.
Qed.

Lemma dict_of_pairs_malformed pairs : ∀ acc,
  Exists (λ p, length p ≠ 2) pairs → dict_of_pairs pairs acc = Err ValueError.
Proof.
  induction pairs as [|p pairs IH]; intros acc Hbad.
  - by apply Exists_nil in Hbad.
  - simpl. destruct p as [|k [|v [|w p]]]; try done.
    apply Exists_cons in Hbad as [Hbad|Hbad]; [done|]. by apply IH.
Qed.

Lemma overrides_parse_last_wins_aux (kvs : list (string * string)) :
  Forall (λ kv, ("="%char ∉ String.list_ascii_of_string (kv.1)) ∧
                ("="%char ∉ String.list_ascii_of_string (kv.2))) kvs →
  dict_of_pairs
    (split_on "="%char <$> ((λ kv, kv.1 +:+ "=" +:+ kv.2) <$> kvs)) ∅
  = Ok (list_to_map (reverse kvs)).
Proof.
  intros Hclean.
  assert (split_on "="%char <$> ((λ kv, kv.1 +:+ "=" +:+ kv.2) <$> kvs)
          = (λ kv, [kv.1; kv.2]) <$> kvs) as ->.
  { induction Hclean as [|[k v] kvs [Hk Hv] _ IH]; [done|].
    rewrite !fmap_cons, IH. f_equal. by apply split_on_key_value. }
  by rewrite dict_of_pairs_pairs, (right_id_L ∅ (∪)).
Qed.

(** X16: command-line overrides of the form [key=value], with no [=]
    inside the key or the value, give the dictionary of these keys and
    values, where the last value given for a key wins. *)
Theorem overrides_parse_last_wins (kvs : list (string * string)) :
  Forall (λ kv, ("="%char ∉ String.list_ascii_of_string (kv.1)) ∧
                ("="%char ∉ String.list_ascii_of_string (kv.2))) kvs →
  dict_of_pairs
    (split_on "="%char <$> ((λ kv, kv.1 +:+ "=" +:+ kv.2) <$> kvs)) ∅
  = Ok (list_to_map (reverse kvs)).
Proof. apply overrides_parse_last_wins_aux. Qed.

Lemma overrides_parse_last_wins_witness :
  dict_of_pairs
    (split_on "="%char <$>
       ["SubnetId=subnet-1"; "KeyName=ops"; "SubnetId=subnet-Y"]) ∅
  = Ok (list_to_map (reverse [ ("SubnetId", "subnet-1"); ("KeyName", "ops");
                               ("SubnetId", "subnet-Y") ])) ∧
  (list_to_map (reverse [ ("SubnetId", "subnet-1"); ("KeyName", "ops");
                          ("SubnetId", "subnet-Y") ]) : gmap string string)
    !! "SubnetId" = Some "subnet-Y".
Proof.
  split; [|reflexivity].
  apply (overrides_parse_last_wins
           [ ("SubnetId", "subnet-1"); ("KeyName", "ops");
             ("SubnetId", "subnet-Y") ]).
  repeat constructor; simpl;
    rewrite ?not_elem_of_cons; repeat split; try discriminate;
    apply not_elem_of_nil.
Defined.

(** X17: the script stops with a usage error, before any call to the
    provider, when fewer than two arguments follow its name, and with
    [ValueError] when an override does not split at [=] into exactly two
    parts (no [=], or more than one); otherwise it runs [main] with the
    region, the source instance and the parsed overrides. *)
Theorem script_checks_arguments env fuel h :
  (∀ argv, length argv < 3 →
     ∃ msg, script env argv fuel h = (Raise (SyntaxError msg), h)) ∧
  (∀ prog region sourceinstance overrides,
     Exists (λ a, length (split_on "="%char a) ≠ 2) overrides →
     script env (prog :: region :: sourceinstance :: overrides) fuel h
     = (Raise ValueError, h)) ∧
  (∀ prog region sourceinstance (kvs : list (string * string)),
     Forall (λ kv, ("="%char ∉ String.list_ascii_of_string (kv.1)) ∧
                   ("="%char ∉ String.list_ascii_of_string (kv.2))) kvs →
     script env (prog :: region :: sourceinstance
                   :: ((λ kv, kv.1 +:+ "=" +:+ kv.2) <$> kvs)) fuel h
     = main env region sourceinstance (list_to_map (reverse kvs)) fuel h).
Proof.
  split_and!.
  - intros argv Hlen. by apply script_usage_error.
  - intros prog region sourceinstance overrides Hbad. unfold script.
    assert (overrides ≠ []) as Hne by (intros ->; by apply Exists_nil in Hbad).
    destruct overrides as [|a overrides]; [done|].
    cbn [length Nat.ltb Nat.leb].
    apply bind_Raise.
    rewrite dict_of_pairs_malformed; [done|]. by apply Exists_fmap.
  - intros prog region sourceinstance kvs Hclean. unfold script.
    destruct kvs as [|kv kvs]; [by cbn|].
    set (overrides := (λ kv, kv.1 +:+ "=" +:+ kv.2) <$> (kv :: kvs)).
    assert (length (prog :: region :: sourceinstance :: overrides)
            = 4 + length kvs) as Hlen.
    { unfold overrides. simpl. by rewrite length_fmap. }
    rewrite Hlen.
    change (4 + length kvs <? 3) with false.
    change (3 <? 4 + length kvs) with true. cbv iota.
    unfold overrides. by rewrite overrides_parse_last_wins_aux.
Qed.

Lemma script_checks_arguments_witness :
  (∃ msg, script example_env ["cloneEC2.py"; "r1"] 0 []
          = (Raise (SyntaxError msg), [])) ∧
  script example_env ["cloneEC2.py"; "r1"; "i-srcA"; "a=b=c"] 0 []
  = (Raise ValueError, []) ∧
  script example_env
    ("cloneEC2.py" :: "r1" :: "i-srcA"
       :: ((λ kv, kv.1 +:+ "=" +:+ kv.2) <$> [("ImageId", "ami-X")])) 0 []
  = main example_env "r1" "i-srcA"
      (list_to_map (reverse [("ImageId", "ami-X")])) 0 [].
Proof.
  destruct (script_checks_arguments example_env 0 []) as (Husage & Hbad & Hrun).
  split_and!.
  - apply Husage. simpl. lia.
  - apply Hbad. constructor. simpl. discriminate.
  - apply Hrun. repeat constructor; simpl;
      rewrite ?not_elem_of_cons; repeat split; try discriminate;
      apply not_elem_of_nil.
Defined.
